(** * Go streaming notes: readers, transforms and the copy loop

    A shallow embedding of the Go snippets of
    [module02/02-readable-writable-transform/note.md]:
    [CounterSource], [Uppercase], [HeaderOnce] (sections 4 to 6), the
    pipelines built from them with [io.Copy] (sections 8 to 10), and the
    two goroutines around an [io.Pipe] (section 11).

    A method with a pointer receiver, [func (c *T) Read(p []byte) (int, error)],
    becomes a function from the receiver's state and the contents of [p] to
    the new state, the new contents of [p], the count and the error. *)

From Stdlib Require Import Strings.String Strings.Byte.
From Stdlib Require Import ZArith List Bool Lia Arith.
Import ListNotations.

Local Open Scope nat_scope.
Local Open Scope list_scope.

Set Implicit Arguments.

(** ** Runtime pieces *)

(** The [error] values at play: [io.EOF], the two errors [io.Copy] makes
    up itself, [context.Canceled], and [io.ErrNoProgress], which
    [bufio.Writer.ReadFrom] reports.  Go's [nil] is [None] in
    [option error]. *)
Inductive error : Type :=
| EOF
| ErrShortWrite
| errInvalidWrite
| Canceled
| ErrNoProgress.

(** A call returns, or the goroutine panics (slice bounds out of range). *)
Inductive result (A : Type) : Type :=
| Ok (a : A)
| Panic.
Arguments Panic {A}.

Definition bind {A B} (x : result A) (f : A -> result B) : result B :=
  match x with
  | Ok a => f a
  | Panic => Panic
  end.

Declare Scope go_scope.
Delimit Scope go_scope with go.
Notation "'do' x <- c ; k" := (bind c (fun x => k))
  (at level 10, x name, c at level 100, k at level 200) : go_scope.
Open Scope go_scope.

(** [make([]byte, n)]: n zero bytes, length and capacity n. *)
Definition make (n : nat) : list byte := repeat x00 n.

(** The builtin [copy(dst, src)]: overwrites the first
    [min(len(dst), len(src))] bytes of [dst] and returns that count. *)
Definition copy (dst src : list byte) : list byte * nat :=
  let n := Nat.min (length dst) (length src) in
  (firstn n src ++ skipn n dst, n).

(** [b[:n]] for a slice whose capacity is its length. *)
Definition slice_to (b : list byte) (n : nat) : result (list byte) :=
  if n <=? length b then Ok (firstn n b) else Panic.

(** Go's [int] on a 64-bit platform: signed, wrapping on overflow. *)
Definition int_min : Z := - 2 ^ 63.
Definition int_max : Z := 2 ^ 63 - 1.
Definition wrap (z : Z) : Z := (z + 2 ^ 63) mod 2 ^ 64 - 2 ^ 63.
Definition is_int (z : Z) : Prop := (int_min <= z <= int_max)%Z.

(** ** fmt.Sprintf("value-%d\n", i) *)

Definition digit (d : Z) : byte :=
  match d with
  | 0%Z => "0" | 1%Z => "1" | 2%Z => "2" | 3%Z => "3" | 4%Z => "4"
  | 5%Z => "5" | 6%Z => "6" | 7%Z => "7" | 8%Z => "8" | _ => "9"
  end%byte.

(** The digit loop of [strconv]: least significant digit first, written in
    front of what is already there; a 64-bit value has at most 20 digits. *)
Fixpoint format_digits (fuel : nat) (u : Z) (acc : list byte) : list byte :=
  match fuel with
  | O => acc
  | S fuel' =>
      let acc' := digit (u mod 10) :: acc in
      if (u <? 10)%Z then acc' else format_digits fuel' (u / 10) acc'
  end.

(** The verb [%d] on an [int]: a minus sign for a negative value, then the
    decimal digits of its magnitude. *)
Definition FormatInt (z : Z) : list byte :=
  if (z <? 0)%Z then "-"%byte :: format_digits 20 (- z) []
  else format_digits 20 z [].

Definition newline : byte := x0a.

Definition value_prefix : list byte := ["v"; "a"; "l"; "u"; "e"; "-"]%byte.

Definition Sprintf_value (i : Z) : list byte :=
  value_prefix ++ FormatInt i ++ [newline].

(** ** bytes.ToUpper *)

Definition is_ascii (b : byte) : bool := (Byte.to_N b <? 128)%N.

(** ['a' <= c && c <= 'z'] gives [c - ('a' - 'A')]; any other byte is kept. *)
Definition upper_byte (b : byte) : byte :=
  match b with
  | x61 => x41 | x62 => x42 | x63 => x43 | x64 => x44 | x65 => x45
  | x66 => x46 | x67 => x47 | x68 => x48 | x69 => x49 | x6a => x4a
  | x6b => x4b | x6c => x4c | x6d => x4d | x6e => x4e | x6f => x4f
  | x70 => x50 | x71 => x51 | x72 => x52 | x73 => x53 | x74 => x54
  | x75 => x55 | x76 => x56 | x77 => x57 | x78 => x58 | x79 => x59
  | x7a => x5a
  | _ => b
  end.

(** [bytes.ToUpper] maps a slice that holds a byte of 0x80 or more rune by
    rune through the Unicode case tables ([bytes.Map(unicode.ToUpper, s)]).
    The tables are no part of the notes: that path is a parameter. *)
Class UnicodeTables : Type := MapToUpper : list byte -> list byte.

(** The simplest tables: no rune has an upper-case form of its own.  Used
    where a run has to be evaluated; the notes' data never leaves ASCII. *)
Definition no_case_tables : UnicodeTables := fun s => s.

(** [bytes.ToUpper]: an all-ASCII slice is mapped byte by byte. *)
Definition bytes_ToUpper {tables : UnicodeTables} (s : list byte) : list byte :=
  if forallb is_ascii s then map upper_byte s else MapToUpper s.

(** ** io.Reader and io.Writer *)

(** What a [Read(p)] call leaves behind: the receiver, the contents of [p],
    and the two values it returns. *)
Record readout (R : Type) : Type := Readout {
  rd_next : R;
  rd_buf : list byte;
  rd_n : nat;
  rd_err : option error
}.

(** [io.Reader]: the one method [Read(p []byte) (n int, err error)]. *)
Class Reader (R : Type) : Type :=
  Read : R -> list byte -> result (readout R).

Record writeout (W : Type) : Type := Writeout {
  wr_next : W;
  wr_n : nat;
  wr_err : option error
}.

(** [io.Writer]: the one method [Write(p []byte) (n int, err error)]. *)
Class Writer (W : Type) : Type :=
  Write : W -> list byte -> writeout W.

(** ** Section 4: CounterSource *)

Module CounterSource.

Record t : Type := mk { i : Z; max : Z }.

Definition Read (c : t) (p : list byte) : result (readout t) :=
  if (i c >=? max c)%Z then
    Ok (Readout c p 0 (Some EOF))
  else
    let '(p', n) := copy p (Sprintf_value (i c)) in
    Ok (Readout (mk (wrap (i c + 1)) (max c)) p' n None).

End CounterSource.

#[export] Instance CounterSource_Reader : Reader CounterSource.t :=
  CounterSource.Read.

(** ** Section 5: Uppercase *)

Module Uppercase.

Record t (R : Type) : Type := mk { r : R }.

Definition Read {tables : UnicodeTables} {R : Type} {upstream : Reader R}
    (u : t R) (p : list byte) : result (readout (t R)) :=
  let buf := make 4096 in
  do o <- Read (r u) buf;
  if 0 <? rd_n o then
    do chunk <- slice_to (rd_buf o) (rd_n o);
    let '(p', _) := copy p (bytes_ToUpper chunk) in
    Ok (Readout (mk (rd_next o)) p' (rd_n o) (rd_err o))
  else
    Ok (Readout (mk (rd_next o)) p (rd_n o) (rd_err o)).

End Uppercase.

#[export] Instance Uppercase_Reader {tables : UnicodeTables} (R : Type)
    {upstream : Reader R} : Reader (Uppercase.t R) :=
  Uppercase.Read.

(** ** Section 6: HeaderOnce *)

Definition header : list byte :=
  ["i"; "d"; ","; "n"; "a"; "m"; "e"]%byte ++ [newline].

Module HeaderOnce.

Record t (R : Type) : Type := mk { r : R; done : bool }.

Definition Read {R : Type} {upstream : Reader R}
    (h : t R) (p : list byte) : result (readout (t R)) :=
  if negb (done h) then
    let '(p', n) := copy p header in
    Ok (Readout (mk (r h) true) p' n None)
  else
    do o <- Read (r h) p;
    Ok (Readout (mk (rd_next o) (done h)) (rd_buf o) (rd_n o) (rd_err o)).

End HeaderOnce.

#[export] Instance HeaderOnce_Reader (R : Type) {upstream : Reader R} :
    Reader (HeaderOnce.t R) :=
  HeaderOnce.Read.

(** ** Callers *)

(** Successive [Read] calls on one reader, one call per buffer offered;
    nothing follows a panic. *)
Fixpoint Reads {R : Type} {rd : Reader R} (s : R) (ps : list (list byte))
    : list (result (readout R)) :=
  match ps with
  | [] => []
  | p :: ps' =>
      match Read s p with
      | Ok o => Ok o :: Reads (rd_next o) ps'
      | Panic => [Panic]
      end
  end.

(** A caller that offers a fresh buffer of each given size in turn, keeps
    [p[:n]] of every call and stops at the first call that reports an
    error: the bytes gathered and the error that ended the run ([None] when
    the sizes ran out first). *)
Fixpoint drain {R : Type} {rd : Reader R} (s : R) (sizes : list nat)
    : result (list byte * option error) :=
  match sizes with
  | [] => Ok ([], None)
  | k :: sizes' =>
      do o <- Read s (make k);
      do chunk <- slice_to (rd_buf o) (rd_n o);
      match rd_err o with
      | Some e => Ok (chunk, Some e)
      | None =>
          do more <- drain (rd_next o) sizes';
          Ok (chunk ++ fst more, snd more)
      end
  end.

(** The collecting sink: keeps every byte written to it, never fails. *)
Record Collector : Type := { collected : list byte }.

#[export] Instance Collector_Writer : Writer Collector :=
  fun c p => Writeout {| collected := collected c ++ p |} (length p) None.

(** ** Section 8: io.Copy *)

(** What [io.Copy] returns ([written], [err]) and the two ends as it leaves
    them. *)
Record copied (W R : Type) : Type := Copied {
  written : Z;
  copy_err : option error;
  dst_after : W;
  src_after : R
}.

Section Copy.

Context {W R : Type} {wr : Writer W} {rd : Reader R}.

(** The loop of the standard library's [io.Copy] (its [copyBuffer]) for
    a source used through [Read] and a destination used through [Write]:
    read into [buf], write [buf[0:nr]], stop at the first error, with
    [EOF] from the source reported as success.  This is all of [io.Copy]
    only where the source has no [WriteTo] and the destination no
    [ReadFrom].  None of the notes' readers has a [WriteTo].  Of the
    destinations, an [*os.File] has a [ReadFrom], which over the notes'
    readers runs this same loop ([File_ReadFrom] below); a
    [*bufio.Writer] has one that does not, and [io.Copy] onto it is
    [io_Copy_bufio] below.  [fuel] bounds the number of iterations;
    [None] is a loop that has not finished. *)
Fixpoint copyBuffer (fuel : nat) (dst : W) (src : R) (buf : list byte)
    (written : Z) : option (result (copied W R)) :=
  match fuel with
  | O => None
  | S fuel' =>
      match Read src buf with
      | Panic => Some Panic
      | Ok o =>
          let after_read (dst' : W) (written' : Z) :=
            match rd_err o with
            | Some er =>
                Some (Ok (Copied written'
                            (match er with EOF => None | _ => Some er end)
                            dst' (rd_next o)))
            | None => copyBuffer fuel' dst' (rd_next o) (rd_buf o) written'
            end in
          if 0 <? rd_n o then
            match slice_to (rd_buf o) (rd_n o) with
            | Panic => Some Panic
            | Ok chunk =>
                let w := Write dst chunk in
                let invalid := rd_n o <? wr_n w in
                let nw := if invalid then 0 else wr_n w in
                let ew :=
                  if invalid then
                    match wr_err w with
                    | None => Some errInvalidWrite
                    | Some e => Some e
                    end
                  else wr_err w in
                let written' := wrap (written + Z.of_nat nw) in
                match ew with
                | Some e =>
                    Some (Ok (Copied written' (Some e) (wr_next w) (rd_next o)))
                | None =>
                    if negb (rd_n o =? nw) then
                      Some (Ok (Copied written' (Some ErrShortWrite)
                                  (wr_next w) (rd_next o)))
                    else after_read (wr_next w) written'
                end
            end
          else after_read dst written
      end
  end.

(** [io.Copy(dst, src)] where it comes down to the loop: over a fresh
    buffer of 32 KiB. *)
Definition io_Copy (fuel : nat) (dst : W) (src : R)
    : option (result (copied W R)) :=
  copyBuffer fuel dst src (make (32 * 1024)) 0.

End Copy.

(** ** Section 9: the full pipeline *)

Definition Pipeline : Type := HeaderOnce.t (Uppercase.t CounterSource.t).

(** [src := &CounterSource{max: m}; upper := &Uppercase{r: src};
    withHeader := &HeaderOnce{r: upper}]. *)
Definition withHeader (m : Z) : Pipeline :=
  HeaderOnce.mk (Uppercase.mk (CounterSource.mk 0 m)) false.

(** [Read] on the pipeline: [HeaderOnce]'s method over [Uppercase]'s over
    [CounterSource]'s. *)
Definition Pipeline_Reader {tables : UnicodeTables} : Reader Pipeline := _.

(** The bytes a [CounterSource] from [i] on is built to produce in its next
    [count] records. *)
Fixpoint records (i : Z) (count : nat) : list byte :=
  match count with
  | O => []
  | S count' => Sprintf_value i ++ records (i + 1) count'
  end.

Definition VALUE_prefix : list byte := ["V"; "A"; "L"; "U"; "E"; "-"]%byte.

(** A record in upper case. *)
Definition Upper_value (i : Z) : list byte :=
  VALUE_prefix ++ FormatInt i ++ [newline].

(** The same records in upper case. *)
Fixpoint upper_records (i : Z) (count : nat) : list byte :=
  match count with
  | O => []
  | S count' => Upper_value i ++ upper_records (i + 1) count'
  end.

(** Text as bytes: every line followed by a newline byte. *)
Definition lines (ls : list String.string) : list byte :=
  concat (map (fun l => String.list_byte_of_string l ++ [newline]) ls).

(** ** Section 10: the buffered writer *)

Module bufio.

(** [bufio.Writer]: [buf] holds the buffered bytes [b.buf[0:b.n]] and
    [size] is [len(b.buf)]. *)
Record t (W : Type) : Type := mk {
  err : option error;
  buf : list byte;
  size : nat;
  wr : W
}.

Section Methods.

Context {W : Type} {downstream : Writer W}.

(** [bufio.NewWriter(w)]: the default size of 4096 bytes. *)
Definition NewWriter (w : W) : t W := mk None [] 4096 w.

Definition Available (b : t W) : nat := size b - length (buf b).
Definition Buffered (b : t W) : nat := length (buf b).

Definition is_nil (e : option error) : bool :=
  match e with None => true | Some _ => false end.

(** [Flush]: hands the buffered bytes to the wrapped writer in one
    [Write]; what a short write leaves behind stays buffered and the
    error sticks. *)
Definition Flush (b : t W) : t W * option error :=
  match err b with
  | Some e => (b, Some e)
  | None =>
      if Buffered b =? 0 then (b, None)
      else
        let w := Write (wr b) (buf b) in
        let e :=
          if (wr_n w <? Buffered b) && is_nil (wr_err w)
          then Some ErrShortWrite else wr_err w in
        match e with
        | Some e' =>
            (mk (Some e') (skipn (wr_n w) (buf b)) (size b) (wr_next w),
             Some e')
        | None => (mk None [] (size b) (wr_next w), None)
        end
  end.

(** The loop of [Write], [for len(p) > b.Available() && b.err == nil]:
    a write into an empty buffer goes straight to the wrapped writer,
    any other fills the buffer and flushes it.  The state is the
    writer, what is left of [p], and the running count [nn]. *)
Fixpoint Write_loop (fuel : nat) (b : t W) (p : list byte) (nn : nat)
    : t W * list byte * nat :=
  match fuel with
  | O => (b, p, nn)
  | S fuel' =>
      if (Available b <? length p) && is_nil (err b) then
        if Buffered b =? 0 then
          let w := Write (wr b) p in
          Write_loop fuel'
            (mk (wr_err w) (buf b) (size b) (wr_next w))
            (skipn (wr_n w) p) (nn + wr_n w)
        else
          let n := Nat.min (Available b) (length p) in
          let filled := mk (err b) (buf b ++ firstn n p) (size b) (wr b) in
          Write_loop fuel' (fst (Flush filled)) (skipn n p) (nn + n)
      else (b, p, nn)
  end.

(** [Write]: the loop, then the rest of [p] is copied into the buffer.
    Only the first turn of the loop can find bytes in the buffer, and
    every later one takes a byte of [p] or more unless the wrapped
    writer fails or takes nothing: [len(p) + 1] turns are all there can
    be, which is the fuel the loop is given.  The one case cut short is
    a wrapped writer that takes no byte and reports no error, which Go's
    loop goes on asking. *)
Definition Write (b : t W) (p : list byte) : writeout (t W) :=
  let '(b1, p1, nn) := Write_loop (S (length p)) b p 0 in
  match err b1 with
  | Some e => Writeout b1 nn (Some e)
  | None =>
      let n := Nat.min (Available b1) (length p1) in
      Writeout (mk None (buf b1 ++ firstn n p1) (size b1) (wr b1))
               (nn + n) None
  end.

End Methods.

Section ReaderFrom.

Context {W R : Type} {downstream : Writer W} {rd : Reader R}.

(** [b.wr.(io.ReaderFrom)]: the wrapped writer's own [ReadFrom] when it
    has one, [None] when it has only [Write]. *)
Variable readerFrom :
  option (nat -> W -> R -> option (result (copied W R))).

Definition maxConsecutiveEmptyReads : nat := 100.

(** The inner loop of [ReadFrom],
    [for nr < maxConsecutiveEmptyReads { m, err = r.Read(b.buf[b.n:]); ... }]:
    reads until a call yields a byte or an error, [tries] times at most.
    When every call came back with [0, nil] the last of them is what it
    returns, which is how [ReadFrom] tells. *)
Fixpoint read_some (tries : nat) (r : R) (spare : list byte)
    : result (readout R) :=
  match tries with
  | O => Ok (Readout r spare 0 None)
  | S tries' =>
      do o <- Read r spare;
      if (rd_n o =? 0) && is_nil (rd_err o)
      then read_some tries' (rd_next o) (rd_buf o)
      else Ok o
  end.

(** The loop of [ReadFrom].  [spare] is what the array holds behind the
    buffered bytes, [b.buf[b.n:]], the slice each [Read] is handed; [n]
    is the running count.  A full buffer is flushed first; with nothing
    buffered the wrapped writer's [ReadFrom] takes over for good;
    otherwise the source is read into the free part of the buffer, and
    at [io.EOF] the buffer is flushed only if it is exactly full.  A
    reader that reports more bytes than the slice it was given can hold
    leaves [b.n] past the end of the array, where the next [b.buf[...]]
    panics: the panic is reported at that read. *)
Fixpoint ReadFrom_loop (fuel : nat) (b : t W) (spare : list byte) (r : R)
    (n : Z) : option (result (copied (t W) R)) :=
  match fuel with
  | O => None
  | S fuel' =>
      let '(b1, spare1, err1) :=
        if Available b =? 0
        then (fst (Flush b), buf b ++ spare, snd (Flush b))
        else (b, spare, None) in
      match err1 with
      | Some e => Some (Ok (Copied n (Some e) b1 r))
      | None =>
          match (if Buffered b1 =? 0 then readerFrom else None) with
          | Some under =>
              match under fuel' (wr b1) r with
              | None => None
              | Some Panic => Some Panic
              | Some (Ok c) =>
                  Some (Ok (Copied (wrap (n + written c)) (copy_err c)
                              (mk (copy_err c) (buf b1) (size b1)
                                  (dst_after c))
                              (src_after c)))
              end
          | None =>
              match read_some maxConsecutiveEmptyReads r spare1 with
              | Panic => Some Panic
              | Ok o =>
                  if (rd_n o =? 0) && is_nil (rd_err o) then
                    Some (Ok (Copied n (Some ErrNoProgress) b1 (rd_next o)))
                  else if length (rd_buf o) <? rd_n o then Some Panic
                  else
                    let b2 := mk (err b1) (buf b1 ++ firstn (rd_n o) (rd_buf o))
                                 (size b1) (wr b1) in
                    let n' := wrap (n + Z.of_nat (rd_n o)) in
                    match rd_err o with
                    | None =>
                        ReadFrom_loop fuel' b2 (skipn (rd_n o) (rd_buf o))
                                      (rd_next o) n'
                    | Some EOF =>
                        if Available b2 =? 0
                        then Some (Ok (Copied n' (snd (Flush b2))
                                         (fst (Flush b2)) (rd_next o)))
                        else Some (Ok (Copied n' None b2 (rd_next o)))
                    | Some e => Some (Ok (Copied n' (Some e) b2 (rd_next o)))
                    end
              end
          end
      end
  end.

(** [b.ReadFrom(r)]. *)
Definition ReadFrom (fuel : nat) (b : t W) (spare : list byte) (r : R)
    : option (result (copied (t W) R)) :=
  match err b with
  | Some e => Some (Ok (Copied 0 (Some e) b r))
  | None => ReadFrom_loop fuel b spare r 0
  end.

End ReaderFrom.

End bufio.

#[export] Instance bufio_Writer (W : Type) {downstream : Writer W} :
    Writer (bufio.t W) :=
  bufio.Write.

(** [fmt.Fprintln(w, s)]: one [Write] of [s] and a newline; the snippet
    drops what it returns. *)
Definition Fprintln {W : Type} {wr : Writer W} (w : W) (s : String.string) : W :=
  wr_next (Write w (lines [s])).

(** Section 10 as a function of the file it writes to:
    [w := bufio.NewWriter(file); defer w.Flush(); fmt.Fprintln(w, "hello")].
    The deferred [Flush] runs when the function returns. *)
Definition buffered_hello {W : Type} {wr : Writer W} (file : W) : W :=
  let w := bufio.NewWriter file in
  let w := Fprintln w "hello" in
  bufio.wr (fst (bufio.Flush w)).

(** A run of [Write] calls on one writer. *)
Definition Writes {W : Type} {wr : Writer W} (w : W) (ps : list (list byte)) : W :=
  fold_left (fun w p => wr_next (Write w p)) ps w.

(** [ReadFrom] of an [*os.File] such as [os.Stdout] or the [out] of
    section 9, over a source that is itself no file or socket (none of
    the notes' readers is): the library's [genericReadFrom], which is
    [io.Copy] onto the file with its [ReadFrom] hidden, so the loop of
    [copyBuffer] over the file's [Write].  The [Collector] stands for the
    file. *)
Definition File_ReadFrom {R : Type} {rd : Reader R} (fuel : nat)
    (f : Collector) (r : R) : option (result (copied Collector R)) :=
  io_Copy fuel f r.

(** [io.Copy(w, src)] for [w] a [*bufio.Writer] and [src] one of the
    notes' readers: the source has no [WriteTo] and the destination has a
    [ReadFrom], so [io.Copy] returns [w.ReadFrom(src)] and never calls
    [w.Write].  [readerFrom] says whether the writer under [w] has a
    [ReadFrom] of its own, and [spare] is the rest of [w]'s array. *)
Definition io_Copy_bufio {W R : Type} {wr : Writer W} {rd : Reader R}
    (readerFrom : option (nat -> W -> R -> option (result (copied W R))))
    (fuel : nat) (w : bufio.t W) (spare : list byte) (src : R)
    : option (result (copied (bufio.t W) R)) :=
  bufio.ReadFrom readerFrom fuel w spare src.

(** ** Section 11: io.Pipe *)

Module Pipe.

(** What the goroutine of the write side runs, in order: [w.Write(b)] and
    [w.Close()]. *)
Inductive op : Type :=
| Write (b : list byte)
| Close.

(** What the two ends of [io.Pipe()] share.  The standard library's pipe
    has no buffer of its own: a [Write] offers its slice to the reader and
    returns once the reader has taken all of it.  [offered] is what is
    left of the slice a [Write] in progress is offering; [done] is set by
    [Close] on the write side, after which reads report [io.EOF]. *)
Record t : Type := mk {
  offered : option (list byte);
  done : bool
}.

Definition new : t := mk None false.

(** The two goroutines of section 11 around one pipe: the calls the write
    side has not started yet, the pipe, the buffer sizes the reading loop
    will offer, the bytes it has received, and the error that ended it. *)
Record config : Type := Config {
  producer : list op;
  pipe : t;
  sizes : list nat;
  received : list byte;
  ended : option error
}.

(** What a [Write] still offers after a read of [k] bytes: it returns
    ([None]) once nothing is left. *)
Definition left_over (b : list byte) (k : nat) : option (list byte) :=
  if length b <=? k then None else Some (skipn k b).

(** One move of either goroutine, after the library's [pipe.write],
    [pipe.read] and [pipe.closeWrite].  [step_Write]: a [Write] sends its
    slice on the pipe's channel and waits.  [step_Read]: a [Read] with a
    buffer of [k] bytes receives the slice, copies what fits and answers
    with the count; the [Write] offers the rest again, or returns when
    nothing is left (an empty slice is offered once).  [step_Close]: the
    write side marks the pipe done.  [step_Read_closed]: a [Read] on a
    pipe that is done returns [0, io.EOF].  [step_Write_closed]: a
    [Write] on a pipe that is done returns [io.ErrClosedPipe] and sends
    nothing.  The write side is one goroutine, so it moves only while no
    [Write] of its own is in progress; the reader waits while the pipe is
    open and nothing is offered, and stops at the first error, as the
    loop of [io.Copy] does. *)
Inductive step : config -> config -> Prop :=
| step_Write (b : list byte) ops ks out e :
    step (Config (Write b :: ops) (mk None false) ks out e)
         (Config ops (mk (Some b) false) ks out e)
| step_Write_closed (b : list byte) ops ks out e :
    step (Config (Write b :: ops) (mk None true) ks out e)
         (Config ops (mk None true) ks out e)
| step_Close ops d ks out e :
    step (Config (Close :: ops) (mk None d) ks out e)
         (Config ops (mk None true) ks out e)
| step_Read ops (b : list byte) k ks out :
    step (Config ops (mk (Some b) false) (k :: ks) out None)
         (Config ops (mk (left_over b k) false) ks (out ++ firstn k b) None)
| step_Read_closed ops o k ks out :
    step (Config ops (mk o true) (k :: ks) out None)
         (Config ops (mk o true) ks out (Some EOF)).

Inductive steps : config -> config -> Prop :=
| steps_refl c : steps c c
| steps_step c1 c2 c3 : step c1 c2 -> steps c2 c3 -> steps c1 c3.

(** A scheduler, to run the two goroutines: the reader moves when it can,
    the write side otherwise; [None] when neither can. *)
Definition next (c : config) : option config :=
  match ended c, sizes c, pipe c with
  | None, k :: ks, mk o true =>
      Some (Config (producer c) (mk o true) ks (received c) (Some EOF))
  | None, k :: ks, mk (Some b) false =>
      Some (Config (producer c) (mk (left_over b k) false) ks
                   (received c ++ firstn k b) None)
  | e, ks, mk None d =>
      match producer c with
      | Write b :: ops =>
          Some (Config ops (mk (if d then None else Some b) d) ks
                       (received c) e)
      | Close :: ops => Some (Config ops (mk None true) ks (received c) e)
      | [] => None
      end
  | _, _, _ => None
  end.

Fixpoint run (fuel : nat) (c : config) : config :=
  match fuel with
  | O => c
  | S fuel' => match next c with Some c' => run fuel' c' | None => c end
  end.

(** Section 11: [go func() { w.Write(...); w.Close() }()] beside a loop
    that reads from [r], before either has moved. *)
Definition start (chunks : list (list byte)) (ks : list nat) : config :=
  Config (map Write chunks ++ [Close]) new ks [] None.

(** The bytes of the writes not started yet. *)
Fixpoint unsent (ops : list op) : list byte :=
  match ops with
  | Write b :: ops' => b ++ unsent ops'
  | Close :: ops' => unsent ops'
  | [] => []
  end.

(** The bytes of the write in progress that no read has taken. *)
Definition pending (p : t) : list byte :=
  match offered p with Some b => b | None => [] end.

(** What every state of a run from [start] keeps: no byte is lost or
    reordered between the three places it can be, [Close] comes after the
    last write has been taken, and the reader ends only on [EOF] from a
    closed pipe. *)
Definition Inv (data : list byte) (c : config) : Prop :=
  received c ++ pending (pipe c) ++ unsent (producer c) = data /\
  (if done (pipe c)
   then producer c = [] /\ offered (pipe c) = None
   else exists ws, producer c = map Write ws ++ [Close]) /\
  (ended c <> None -> ended c = Some EOF /\ done (pipe c) = true).

(** The reads the writes not started yet can take: one for each byte,
    and one for an empty write. *)
Fixpoint reads_due (ops : list op) : nat :=
  match ops with
  | Write b :: ops' => S (length b) + reads_due ops'
  | Close :: ops' => reads_due ops'
  | [] => 0
  end.

(** The same for the write in progress. *)
Definition reads_pending (p : t) : nat :=
  match offered p with Some b => S (length b) | None => 0 end.

(** The reader has buffers left for all of that and for the read that
    reports [EOF], none of them empty. *)
Definition Enough (c : config) : Prop :=
  Forall (fun k => 1 <= k) (sizes c) /\
  (ended c = None ->
   reads_due (producer c) + reads_pending (pipe c) < length (sizes c)).

End Pipe.

(** ** Section 15: context cancellation *)

(** A [context.Context] as far as the notes use it: whether its [Done]
    channel is closed. *)
Record Context : Type := { ctx_done : bool }.

Definition Background : Context := {| ctx_done := false |}.

(** The [cancel] function of [context.WithCancel]. *)
Definition cancel (ctx : Context) : Context := {| ctx_done := true |}.

(** [select { case <-ctx.Done(): fmt.Println("cancelled") }]: blocked
    ([None]) until the channel is closed, then the line printed. *)
Definition await_cancel (ctx : Context) : option (list byte) :=
  if ctx_done ctx then Some (lines ["cancelled"%string]) else None.

(** Sections 9 and 15 side by side: [io.Copy(out, withHeader)] is handed a
    destination and a source and nothing else, so the state of a context
    is no input of the run. *)
Definition run_pipeline (ctx : Context) (fuel : nat) (m : Z)
    {tables : UnicodeTables} : option (result (copied Collector Pipeline)) :=
  io_Copy fuel {| collected := [] |} (withHeader m).

(** ** Vocabulary of the statements *)

(** Bytes that [bytes.ToUpper] keeps on its ASCII path. *)
Definition plain (b : byte) : bool :=
  is_ascii b && Byte.eqb (upper_byte b) b.

(** The pipeline of section 9 once read to its end. *)
Definition drained (m : Z) : Pipeline :=
  HeaderOnce.mk (Uppercase.mk (CounterSource.mk m m)) true.

(** What a caller gathers from [count] records when call [k] offers
    [sizes[k]] bytes: each record cut to the size of its buffer. *)
Fixpoint truncated (i : Z) (count : nat) (sizes : list nat) : list byte :=
  match count, sizes with
  | S count', k :: sizes' =>
      firstn k (Sprintf_value i) ++ truncated (i + 1) count' sizes'
  | _, _ => []
  end.

(** What [HeaderOnce] makes of a call on the wrapped reader: the same
    buffer, count and error, around the reader's new state. *)
Definition delegated {R : Type} (res : result (readout R))
    : result (readout (HeaderOnce.t R)) :=
  match res with
  | Ok o =>
      Ok (Readout (HeaderOnce.mk (rd_next o) true)
                  (rd_buf o) (rd_n o) (rd_err o))
  | Panic => Panic
  end.

(** A reader on which [EOF] sticks: after a call that reported it, every
    call reports it again, with zero bytes, and changes nothing. *)
Definition sticky (R : Type) {rd : Reader R} : Prop :=
  forall s p o,
    Read s p = Ok o -> rd_err o = Some EOF ->
    forall q, Read (rd_next o) q = Ok (Readout (rd_next o) q 0 (Some EOF)).
Arguments sticky R {rd}.

(** The sources of the notes: a [CounterSource], and [Uppercase] or
    [HeaderOnce] around a source. *)
Inductive Source {tables : UnicodeTables} : forall R : Type, Reader R -> Prop :=
| Source_CounterSource : Source CounterSource_Reader
| Source_Uppercase (R : Type) (rd : Reader R) :
    Source rd -> Source (Uppercase_Reader (upstream := rd))
| Source_HeaderOnce (R : Type) (rd : Reader R) :
    Source rd -> Source (HeaderOnce_Reader (upstream := rd)).

(** The state [bufio.NewWriter] sets up and every call keeps: no error,
    no more bytes buffered than the buffer holds. *)
Definition bufio_ok (b : bufio.t Collector) : Prop :=
  bufio.err b = None /\ length (bufio.buf b) <= bufio.size b /\ 0 < bufio.size b.

(** The bytes a buffered writer has taken so far: those already in the
    wrapped sink, then those still buffered. *)
Definition accepted (b : bufio.t Collector) : list byte :=
  collected (bufio.wr b) ++ bufio.buf b.

(** ** Section 3: streaming in fixed chunks *)

Section FixedChunks.

Context {R : Type} {rd : Reader R}.

(** The loop of section 3,
    [for { n, err := file.Read(buf); if n > 0 { total += int64(n) };
           if err == io.EOF { break } }],
    over any reader in the place of the file: only [io.EOF] ends it, any
    other error is dropped and the loop reads again.  Returns [total] and
    the reader as the loop leaves it; [None] is a loop still running when
    the fuel is spent. *)
Fixpoint read_loop (fuel : nat) (file : R) (buf : list byte) (total : Z)
    : option (result (Z * R)) :=
  match fuel with
  | O => None
  | S fuel' =>
      match Read file buf with
      | Panic => Some Panic
      | Ok o =>
          let total' :=
            if 0 <? rd_n o then wrap (total + Z.of_nat (rd_n o)) else total in
          match rd_err o with
          | Some EOF => Some (Ok (total', rd_next o))
          | _ => read_loop fuel' (rd_next o) (rd_buf o) total'
          end
      end
  end.

(** [buf := make([]byte, 64*1024); var total int64] and the loop. *)
Definition stream_in_chunks (fuel : nat) (file : R)
    : option (result (Z * R)) :=
  read_loop fuel file (make (64 * 1024)) 0.

End FixedChunks.

(** A reader that fails every call with the same error and moves no byte,
    as [iotest.ErrReader(err)] does, or the nil [*os.File] that
    [file, _ := os.Open(...)] leaves behind when the file cannot be
    opened. *)
Record ErrReader : Type := { always : error }.

#[export] Instance ErrReader_Reader : Reader ErrReader :=
  fun e p => Ok (Readout e p 0 (Some (always e))).

(** ** More vocabulary *)

(** Reading decimal text back: the value of a run of digits, and of an
    optional minus sign followed by digits. *)
Definition digit_value (b : byte) : Z := Z.of_N (Byte.to_N b) - 48.

Definition parse_digits (ds : list byte) : Z :=
  fold_left (fun a b => (10 * a + digit_value b)%Z) ds 0%Z.

Definition ParseInt (s : list byte) : Z :=
  match s with
  | x2d :: ds => (- parse_digits ds)%Z
  | _ => parse_digits s
  end.

(** The number of lines of a text: its newline bytes. *)
Definition line_count (s : list byte) : nat :=
  length (filter (Byte.eqb newline) s).

(** A reader, as modelled, hands a buffer back at the length it came in:
    in Go a callee cannot resize the caller's slice. *)
Definition keeps_length (R : Type) {rd : Reader R} : Prop :=
  forall s p o, Read s p = Ok o -> length (rd_buf o) = length p.
Arguments keeps_length R {rd}.

(** Successive [Read] calls that hand the same buffer back each time, up
    to the first call that reports an error: the bytes [buf[0:n]] of every
    call put together, that error, and the reader as it is left.  [None]
    when the fuel is spent before an error. *)
Fixpoint gather {R : Type} {rd : Reader R} (fuel : nat) (src : R)
    (buf : list byte) : option (result (list byte * error * R)) :=
  match fuel with
  | O => None
  | S fuel' =>
      match Read src buf with
      | Panic => Some Panic
      | Ok o =>
          match (if 0 <? rd_n o then slice_to (rd_buf o) (rd_n o)
                 else Ok []) with
          | Panic => Some Panic
          | Ok chunk =>
              match rd_err o with
              | Some e => Some (Ok (chunk, e, rd_next o))
              | None =>
                  match gather fuel' (rd_next o) (rd_buf o) with
                  | Some (Ok (more, e, s)) => Some (Ok (chunk ++ more, e, s))
                  | other => other
                  end
              end
          end
      end
  end.

(** * Properties *)

Arguments make : simpl never.

(** ** The builtins *)

Lemma make_length (n : nat) : length (make n) = n.
Proof. unfold make. apply repeat_length. Qed.

Lemma copy_length (dst src : list byte) :
  length (fst (copy dst src)) = length dst.
Proof.
  unfold copy. cbn [fst].
  rewrite length_app, length_firstn, length_skipn. lia.
Qed.

Lemma copy_count (dst src : list byte) :
  snd (copy dst src) = Nat.min (length dst) (length src).
Proof. reflexivity. Qed.

Lemma copy_fits (dst src : list byte) :
  length src <= length dst ->
  copy dst src = (src ++ skipn (length src) dst, length src).
Proof.
  intros Hle. unfold copy.
  rewrite Nat.min_r by exact Hle.
  now rewrite firstn_all.
Qed.

(** What the caller finds in [p[:n]] after [n := copy(p, src)]. *)
Lemma slice_of_copy (dst src : list byte) :
  slice_to (fst (copy dst src)) (snd (copy dst src))
  = Ok (firstn (length dst) src).
Proof.
  unfold slice_to. rewrite copy_length, copy_count.
  destruct (Nat.leb_spec (Nat.min (length dst) (length src)) (length dst)) as [_|H];
    [|lia].
  unfold copy. cbn [fst]. f_equal.
  set (n := Nat.min (length dst) (length src)).
  rewrite firstn_app, length_firstn.
  replace (n - Nat.min n (length src)) with 0 by lia.
  rewrite firstn_O, app_nil_r, firstn_firstn, Nat.min_id.
  subst n. destruct (Nat.le_ge_cases (length dst) (length src)) as [H|H].
  - now rewrite Nat.min_l.
  - rewrite Nat.min_r by exact H. now rewrite !firstn_all2.
Qed.

Lemma wrap_id (z : Z) : is_int z -> wrap z = z.
Proof.
  unfold is_int, int_min, int_max, wrap. intros H.
  rewrite Z.mod_small; lia.
Qed.

(** ** The records *)

Lemma digit_plain (d : Z) : plain (digit d) = true.
Proof.
  unfold digit.
  repeat match goal with
         | |- context [match ?x with _ => _ end] => destruct x
         end; reflexivity.
Qed.

Lemma format_digits_plain (fuel : nat) :
  forall u acc, forallb plain acc = true ->
                forallb plain (format_digits fuel u acc) = true.
Proof.
  induction fuel as [|fuel IH]; intros u acc Hacc; cbn [format_digits].
  - exact Hacc.
  - assert (H : forallb plain (digit (u mod 10) :: acc) = true)
      by (cbn [forallb]; now rewrite digit_plain, Hacc).
    destruct (u <? 10)%Z; [exact H | now apply IH].
Qed.

Lemma format_digits_length (fuel : nat) :
  forall u acc, length acc < length (format_digits (S fuel) u acc)
                <= S fuel + length acc.
Proof.
  induction fuel as [|fuel IH]; intros u acc.
  - cbn. destruct (u <? 10)%Z; cbn; lia.
  - change (format_digits (S (S fuel)) u acc)
      with (let acc' := digit (u mod 10) :: acc in
            if (u <? 10)%Z then acc' else format_digits (S fuel) (u / 10) acc').
    cbv zeta. destruct (u <? 10)%Z.
    + cbn [length]. lia.
    + specialize (IH (u / 10)%Z (digit (u mod 10) :: acc)).
      cbn [length] in IH. lia.
Qed.

Lemma FormatInt_plain (z : Z) : forallb plain (FormatInt z) = true.
Proof.
  unfold FormatInt. destruct (z <? 0)%Z.
  - cbn [forallb]. now rewrite format_digits_plain.
  - now apply format_digits_plain.
Qed.

Lemma FormatInt_length (z : Z) : 1 <= length (FormatInt z) <= 21.
Proof.
  unfold FormatInt. destruct (z <? 0)%Z; cbn [length];
    pose proof (format_digits_length 19 (- z) []) as H1;
    pose proof (format_digits_length 19 z []) as H2;
    cbn [length] in H1, H2; lia.
Qed.

Lemma Sprintf_value_length (i : Z) : 8 <= length (Sprintf_value i) <= 28.
Proof.
  unfold Sprintf_value. rewrite !length_app.
  pose proof (FormatInt_length i). cbn [length value_prefix]. lia.
Qed.

Lemma plain_ascii (s : list byte) :
  forallb plain s = true -> forallb is_ascii s = true.
Proof.
  induction s as [|b s IH]; cbn [forallb]; [reflexivity|].
  unfold plain at 1. intros H.
  apply andb_true_iff in H as [Hb Hs].
  apply andb_true_iff in Hb as [Hb _].
  now rewrite Hb, IH.
Qed.

Lemma plain_upper (s : list byte) :
  forallb plain s = true -> map upper_byte s = s.
Proof.
  induction s as [|b s IH]; cbn [forallb map]; [reflexivity|].
  unfold plain at 1. intros H.
  apply andb_true_iff in H as [Hb Hs].
  apply andb_true_iff in Hb as [_ Hb].
  apply Byte.byte_dec_bl in Hb.
  now rewrite Hb, IH.
Qed.

(** On a record, [bytes.ToUpper] takes its ASCII path and upper-cases the
    word [value] alone, whatever the Unicode tables are. *)
Lemma ToUpper_record {tables : UnicodeTables} (i : Z) :
  bytes_ToUpper (Sprintf_value i) = VALUE_prefix ++ FormatInt i ++ [newline].
Proof.
  unfold bytes_ToUpper, Sprintf_value.
  assert (Ha : forallb is_ascii (value_prefix ++ FormatInt i ++ [newline]) = true).
  { rewrite !forallb_app. rewrite (plain_ascii _ (FormatInt_plain i)). reflexivity. }
  rewrite Ha, !map_app, (plain_upper _ (FormatInt_plain i)). reflexivity.
Qed.

(** ** Single calls *)

Lemma Upper_value_length (i : Z) :
  length (Upper_value i) = length (Sprintf_value i).
Proof. unfold Upper_value, Sprintf_value. now rewrite !length_app. Qed.

Lemma CounterSource_Read_eof (c : CounterSource.t) (p : list byte) :
  (CounterSource.max c <= CounterSource.i c)%Z ->
  Read c p = Ok (Readout c p 0 (Some EOF)).
Proof.
  intros H. unfold Read, CounterSource_Reader, CounterSource.Read.
  destruct (Z.geb_spec (CounterSource.i c) (CounterSource.max c)); [reflexivity|lia].
Qed.

Lemma CounterSource_Read_more (c : CounterSource.t) (p : list byte) :
  (CounterSource.i c < CounterSource.max c)%Z ->
  is_int (CounterSource.i c) -> (CounterSource.max c <= int_max)%Z ->
  Read c p
  = Ok (Readout (CounterSource.mk (CounterSource.i c + 1) (CounterSource.max c))
                (fst (copy p (Sprintf_value (CounterSource.i c))))
                (snd (copy p (Sprintf_value (CounterSource.i c))))
                None).
Proof.
  intros Hlt Hi Hmax. unfold Read, CounterSource_Reader, CounterSource.Read.
  destruct (Z.geb_spec (CounterSource.i c) (CounterSource.max c)); [lia|].
  rewrite wrap_id by (unfold is_int, int_min, int_max in *; lia).
  now destruct (copy p (Sprintf_value (CounterSource.i c))).
Qed.

Section SingleCalls.

Context {tables : UnicodeTables}.

(** [Uppercase] over a [CounterSource] that has a record left: the whole
    record is read into the 4096-byte scratch buffer and its upper-case
    form is copied into [p]; the count is the record's length. *)
Lemma Uppercase_Read_more (c : CounterSource.t) (p : list byte) :
  (CounterSource.i c < CounterSource.max c)%Z ->
  is_int (CounterSource.i c) -> (CounterSource.max c <= int_max)%Z ->
  Read (Uppercase.mk c) p
  = Ok (Readout
          (Uppercase.mk (CounterSource.mk (CounterSource.i c + 1)
                                          (CounterSource.max c)))
          (fst (copy p (Upper_value (CounterSource.i c))))
          (length (Sprintf_value (CounterSource.i c)))
          None).
Proof.
  intros Hlt Hi Hmax.
  unfold Read at 1, Uppercase_Reader, Uppercase.Read. cbn [Uppercase.r].
  rewrite CounterSource_Read_more by assumption.
  cbn [bind rd_n rd_buf rd_next rd_err].
  pose proof (Sprintf_value_length (CounterSource.i c)) as Hlen.
  rewrite slice_of_copy, copy_count, make_length.
  rewrite Nat.min_r by lia.
  destruct (Nat.ltb_spec 0 (length (Sprintf_value (CounterSource.i c)))); [|lia].
  cbn [bind]. rewrite firstn_all2 by lia.
  rewrite ToUpper_record. fold (Upper_value (CounterSource.i c)).
  now destruct (copy p (Upper_value (CounterSource.i c))).
Qed.

Lemma Uppercase_Read_eof (c : CounterSource.t) (p : list byte) :
  (CounterSource.max c <= CounterSource.i c)%Z ->
  Read (Uppercase.mk c) p = Ok (Readout (Uppercase.mk c) p 0 (Some EOF)).
Proof.
  intros H.
  unfold Read at 1, Uppercase_Reader, Uppercase.Read. cbn [Uppercase.r].
  now rewrite CounterSource_Read_eof.
Qed.

Lemma Pipeline_Read_first (u : Uppercase.t CounterSource.t) (p : list byte) :
  Read (HeaderOnce.mk u false) p
  = Ok (Readout (HeaderOnce.mk u true)
                (fst (copy p header)) (snd (copy p header)) None).
Proof.
  unfold Read at 1, HeaderOnce_Reader, HeaderOnce.Read.
  cbn [HeaderOnce.done HeaderOnce.r negb].
  now destruct (copy p header).
Qed.

Lemma Pipeline_Read_more (c : CounterSource.t) (p : list byte) :
  (CounterSource.i c < CounterSource.max c)%Z ->
  is_int (CounterSource.i c) -> (CounterSource.max c <= int_max)%Z ->
  Read (HeaderOnce.mk (Uppercase.mk c) true) p
  = Ok (Readout
          (HeaderOnce.mk
             (Uppercase.mk (CounterSource.mk (CounterSource.i c + 1)
                                             (CounterSource.max c))) true)
          (fst (copy p (Upper_value (CounterSource.i c))))
          (length (Sprintf_value (CounterSource.i c)))
          None).
Proof.
  intros Hlt Hi Hmax.
  unfold Read at 1, HeaderOnce_Reader, HeaderOnce.Read.
  cbn [HeaderOnce.done HeaderOnce.r negb].
  now rewrite Uppercase_Read_more.
Qed.

Lemma Pipeline_Read_eof (c : CounterSource.t) (p : list byte) :
  (CounterSource.max c <= CounterSource.i c)%Z ->
  Read (HeaderOnce.mk (Uppercase.mk c) true) p
  = Ok (Readout (HeaderOnce.mk (Uppercase.mk c) true) p 0 (Some EOF)).
Proof.
  intros H.
  unfold Read at 1, HeaderOnce_Reader, HeaderOnce.Read.
  cbn [HeaderOnce.done HeaderOnce.r negb].
  now rewrite Uppercase_Read_eof.
Qed.

End SingleCalls.

(** ** The copy loop *)

Section CopyLoop.

Context {R : Type} {rd : Reader R}.

(** One turn of the loop that moves a chunk into the collecting sink. *)
Lemma copyBuffer_chunk (fuel : nat) (dst : Collector) (src src' : R)
    (buf buf' chunk : list byte) (n : nat) (w : Z) :
  Read src buf = Ok (Readout src' buf' n None) ->
  0 < n -> slice_to buf' n = Ok chunk -> length chunk = n ->
  copyBuffer (S fuel) dst src buf w
  = copyBuffer fuel {| collected := collected dst ++ chunk |} src' buf'
               (wrap (w + Z.of_nat n)).
Proof.
  intros Hread Hn Hslice Hlen. cbn [copyBuffer].
  rewrite Hread. cbn [rd_n rd_buf rd_err rd_next].
  destruct (Nat.ltb_spec 0 n); [|lia].
  rewrite Hslice.
  unfold Write, Collector_Writer. cbn [wr_n wr_err wr_next].
  rewrite Hlen, Nat.ltb_irrefl, Nat.eqb_refl. reflexivity.
Qed.

(** The turn on which the source reports [EOF] ends the loop with
    success. *)
Lemma copyBuffer_eof (fuel : nat) (dst : Collector) (src src' : R)
    (buf buf' : list byte) (w : Z) :
  Read src buf = Ok (Readout src' buf' 0 (Some EOF)) ->
  copyBuffer (S fuel) dst src buf w = Some (Ok (Copied w None dst src')).
Proof.
  intros Hread. cbn [copyBuffer]. now rewrite Hread.
Qed.

End CopyLoop.

Section PipelineRun.

Context {tables : UnicodeTables}.

(** Once the header is out, the loop moves the remaining records in
    upper case, one per turn, and ends on the turn after the last. *)
Lemma copyBuffer_records (count : nat) :
  forall (fuel : nat) (i : Z) (dst : Collector) (buf : list byte) (w : Z),
    is_int i -> (i + Z.of_nat count <= int_max)%Z ->
    count < fuel -> 28 <= length buf ->
    exists w',
      copyBuffer fuel dst
        (HeaderOnce.mk
           (Uppercase.mk (CounterSource.mk i (i + Z.of_nat count))) true)
        buf w
      = Some (Ok (Copied w' None
                    {| collected := collected dst ++ upper_records i count |}
                    (drained (i + Z.of_nat count)))).
Proof.
  induction count as [|count IH]; intros fuel i dst buf w Hi Hmax Hfuel Hbuf;
    (destruct fuel as [|fuel]; [lia|]).
  - exists w. rewrite Z.add_0_r.
    erewrite copyBuffer_eof
      by (apply Pipeline_Read_eof; cbn [CounterSource.i CounterSource.max]; lia).
    cbn [upper_records]. rewrite app_nil_r. now destruct dst.
  - pose proof (Sprintf_value_length i) as Hlen.
    assert (Hslice : slice_to (fst (copy buf (Upper_value i)))
                              (length (Sprintf_value i))
                     = Ok (Upper_value i)).
    { pose proof (slice_of_copy buf (Upper_value i)) as Hs.
      rewrite copy_count, Upper_value_length, Nat.min_r in Hs by lia.
      now rewrite firstn_all2 in Hs by (rewrite Upper_value_length; lia). }
    erewrite copyBuffer_chunk; cycle 1.
    + apply Pipeline_Read_more; cbn [CounterSource.i CounterSource.max];
        unfold is_int in *; lia.
    + cbn [CounterSource.i]. lia.
    + cbn [CounterSource.i]. exact Hslice.
    + cbn [CounterSource.i]. apply Upper_value_length.
    + cbn [CounterSource.i CounterSource.max].
      replace (i + Z.of_nat (S count))%Z with (i + 1 + Z.of_nat count)%Z by lia.
      destruct (IH fuel (i + 1)%Z
                   {| collected := collected dst ++ Upper_value i |}
                   (fst (copy buf (Upper_value i)))
                   (wrap (w + Z.of_nat (length (Sprintf_value i)))))
        as [w' Hrun].
      * unfold is_int, int_min, int_max in *. lia.
      * lia.
      * lia.
      * now rewrite copy_length.
      * exists w'. rewrite Hrun. cbn [collected upper_records].
        now rewrite <- !app_assoc.
Qed.

(** [io.Copy] on the pipeline of section 9 with [max = m]: the header,
    then the [m] records in upper case, and success. *)
Lemma io_Copy_pipeline (m fuel : nat) :
  (Z.of_nat m <= int_max)%Z -> m + 2 <= fuel ->
  exists w,
    io_Copy fuel {| collected := [] |} (withHeader (Z.of_nat m))
    = Some (Ok (Copied w None
                  {| collected := header ++ upper_records 0 m |}
                  (drained (Z.of_nat m)))).
Proof.
  intros Hmax Hfuel. unfold io_Copy, withHeader.
  destruct fuel as [|fuel]; [lia|].
  erewrite copyBuffer_chunk; cycle 1.
  - apply Pipeline_Read_first.
  - rewrite copy_count, make_length. cbn. lia.
  - rewrite slice_of_copy, make_length. reflexivity.
  - rewrite copy_count, make_length. reflexivity.
  - destruct (copyBuffer_records (count := m) (fuel := fuel) (i := 0%Z)
                {| collected := [] ++ firstn (32 * 1024) header |}
                (fst (copy (make (32 * 1024)) header))
                (wrap (0 + Z.of_nat (snd (copy (make (32 * 1024)) header)))))
      as [w Hrun].
    + unfold is_int, int_min, int_max. lia.
    + lia.
    + lia.
    + rewrite copy_length, make_length. lia.
    + exists w. cbn [Z.add] in Hrun. exact Hrun.
Qed.

End PipelineRun.

(** ** The end-to-end run (section 9) *)

(** C1. The root [CounterSource] with [max = 3] is built to produce
    "value-0\nvalue-1\nvalue-2\n"; [io.Copy] from [HeaderOnce] over
    [Uppercase] over that source into a collecting sink returns with
    success once it has run its five turns, and the sink then holds exactly
    "id,name\nVALUE-0\nVALUE-1\nVALUE-2\n". *)
Theorem pipeline_end_to_end {tables : UnicodeTables} (fuel : nat) :
  5 <= fuel ->
  records 0 3 = lines ["value-0"; "value-1"; "value-2"]%string /\
  exists c,
    io_Copy fuel {| collected := [] |} (withHeader 3) = Some (Ok c) /\
    copy_err c = None /\
    collected (dst_after c)
    = lines ["id,name"; "VALUE-0"; "VALUE-1"; "VALUE-2"]%string.
Proof.
  intros Hfuel. split; [reflexivity|].
  destruct (@io_Copy_pipeline tables 3 fuel) as [w Hrun];
    [unfold int_max; lia | lia |].
  eexists. split; [exact Hrun|]. split; reflexivity.
Qed.

Lemma pipeline_end_to_end_witness :
  5 <= 5 /\
  records 0 3 = lines ["value-0"; "value-1"; "value-2"]%string /\
  exists c,
    io_Copy (rd := Pipeline_Reader (tables := no_case_tables))
            5 {| collected := [] |} (withHeader 3) = Some (Ok c) /\
    copy_err c = None /\
    collected (dst_after c)
    = lines ["id,name"; "VALUE-0"; "VALUE-1"; "VALUE-2"]%string.
Proof.
  split; [lia|].
  apply (@pipeline_end_to_end no_case_tables 5). lia.
Defined.

(** ** CounterSource call by call (section 4) *)

Lemma Reads_CounterSource (M : Z) (ps : list (list byte)) :
  forall (i : Z) (k : nat) (p : list byte),
    is_int i -> (i <= M <= int_max)%Z ->
    nth_error ps k = Some p ->
    nth_error (Reads (CounterSource.mk i M) ps) k
    = Some (Ok (let j := (i + Z.of_nat k)%Z in
                if (j <? M)%Z then
                  Readout (CounterSource.mk (j + 1) M)
                          (fst (copy p (Sprintf_value j)))
                          (snd (copy p (Sprintf_value j))) None
                else Readout (CounterSource.mk M M) p 0 (Some EOF))).
Proof.
  induction ps as [|p0 ps IH]; intros i k p Hi HM Hk.
  - now destruct k.
  - cbn [Reads]. destruct (Z.ltb_spec i M) as [Hlt|Hge].
    + rewrite CounterSource_Read_more
        by (cbn [CounterSource.i CounterSource.max]; (assumption || lia)).
      cbn [rd_next CounterSource.i CounterSource.max].
      destruct k as [|k]; cbn [nth_error] in *.
      * injection Hk as <-. cbv zeta. rewrite Z.add_0_r.
        destruct (Z.ltb_spec i M); [reflexivity|lia].
      * rewrite (IH (i + 1)%Z k p); [| |lia|assumption].
        -- cbv zeta.
           now replace (i + 1 + Z.of_nat k)%Z with (i + Z.of_nat (S k))%Z by lia.
        -- unfold is_int, int_min, int_max in *. lia.
    + assert (i = M) by lia. subst i.
      rewrite CounterSource_Read_eof by (cbn [CounterSource.i CounterSource.max]; lia).
      cbn [rd_next].
      destruct k as [|k]; cbn [nth_error] in *.
      * injection Hk as <-. cbv zeta.
        destruct (Z.ltb_spec (M + Z.of_nat 0) M); [lia|reflexivity].
      * rewrite (IH M k p) by (assumption || lia). cbv zeta.
        destruct (Z.ltb_spec (M + Z.of_nat k) M); [lia|].
        destruct (Z.ltb_spec (M + Z.of_nat (S k)) M); [lia|reflexivity].
Qed.

(** C10. On a [CounterSource] built with [max = M], the call number [k]
    (from 0), whatever buffer [p] it is given: while [k < M] it moves [i]
    from [k] to [k + 1], reports no error and puts into [p] the first
    [min(len(p), len(record))] bytes of the one record "value-k\n", so
    that every call starts at the head of its own record and the tail a
    short buffer left behind is never handed out; from call [M] on it
    reports [EOF] with zero bytes and leaves [p] and the counter alone. *)
Theorem CounterSource_calls (M : Z) (ps : list (list byte)) (k : nat)
    (p : list byte) :
  (0 <= M <= int_max)%Z ->
  nth_error ps k = Some p ->
  nth_error (Reads (CounterSource.mk 0 M) ps) k
  = Some (Ok (let record := Sprintf_value (Z.of_nat k) in
              let n := Nat.min (length p) (length record) in
              if (Z.of_nat k <? M)%Z then
                Readout (CounterSource.mk (Z.of_nat k + 1) M)
                        (firstn n record ++ skipn n p) n None
              else Readout (CounterSource.mk M M) p 0 (Some EOF))).
Proof.
  intros HM Hk.
  rewrite (@Reads_CounterSource M ps 0%Z k p);
    [reflexivity | unfold is_int, int_min, int_max in *; lia | lia | exact Hk].
Qed.

Lemma CounterSource_calls_witness :
  (0 <= 3 <= int_max)%Z /\
  nth_error [make 3; make 3; make 3; make 3] 1 = Some (make 3) /\
  nth_error (Reads (CounterSource.mk 0 3) [make 3; make 3; make 3; make 3]) 1
  = Some (Ok (Readout (CounterSource.mk 2 3) ["v"; "a"; "l"]%byte 3 None)).
Proof.
  split; [unfold int_max; lia|]. split; [reflexivity|].
  refine (@CounterSource_calls 3 [make 3; make 3; make 3; make 3] 1 (make 3)
            _ eq_refl).
  unfold int_max. lia.
Defined.

(** ** Draining a CounterSource (section 4) *)

Lemma drain_CounterSource (count : nat) :
  forall (sizes : list nat) (i : Z),
    is_int i -> (i + Z.of_nat count <= int_max)%Z ->
    count < length sizes ->
    drain (CounterSource.mk i (i + Z.of_nat count)) sizes
    = Ok (truncated i count sizes, Some EOF).
Proof.
  induction count as [|count IH]; intros sizes i Hi Hmax Hlen;
    (destruct sizes as [|k sizes]; [cbn in Hlen; lia|]); cbn [drain].
  - rewrite CounterSource_Read_eof
      by (cbn [CounterSource.i CounterSource.max]; lia).
    reflexivity.
  - rewrite CounterSource_Read_more
      by (cbn [CounterSource.i CounterSource.max];
          unfold is_int, int_min, int_max in *; lia).
    cbn [bind rd_buf rd_n rd_err rd_next CounterSource.i CounterSource.max].
    rewrite slice_of_copy, make_length. cbn [bind].
    replace (i + Z.of_nat (S count))%Z with (i + 1 + Z.of_nat count)%Z by lia.
    rewrite IH; [reflexivity | | lia | cbn in Hlen; lia].
    unfold is_int, int_min, int_max in *. lia.
Qed.

Lemma truncated_fits (count : nat) :
  forall (sizes : list nat) (i : Z),
    (forall k, k < count ->
               length (Sprintf_value (i + Z.of_nat k)) <= nth k sizes 0) ->
    truncated i count sizes = records i count.
Proof.
  induction count as [|count IH]; intros sizes i Hfit; [reflexivity|].
  pose proof (Hfit 0 ltac:(lia)) as H0. rewrite Z.add_0_r in H0.
  pose proof (Sprintf_value_length i).
  destruct sizes as [|k sizes]; [cbn in H0; lia|].
  cbn [truncated records nth] in *.
  rewrite firstn_all2 by exact H0. f_equal.
  apply IH. intros j Hj. specialize (Hfit (S j) ltac:(lia)).
  cbn [nth] in Hfit.
  now replace (i + 1 + Z.of_nat j)%Z with (i + Z.of_nat (S j))%Z by lia.
Qed.

(** C2, as the code has it.  A [CounterSource] with [max = m], read with
    buffers of the given sizes, one more than [m] of them at least so that
    the call reporting [EOF] is reached: when every call that yields a
    record offers at least that record's length, the chunks put together
    are exactly the [m] records the source was built to produce. *)
Theorem drain_CounterSource_fits (m : nat) (sizes : list nat) :
  (Z.of_nat m <= int_max)%Z ->
  m < length sizes ->
  (forall k, k < m -> length (Sprintf_value (Z.of_nat k)) <= nth k sizes 0) ->
  drain (CounterSource.mk 0 (Z.of_nat m)) sizes
  = Ok (records 0 m, Some EOF).
Proof.
  intros Hmax Hlen Hfit.
  pose proof (@drain_CounterSource m sizes 0%Z) as Hdrain.
  change (0 + Z.of_nat m)%Z with (Z.of_nat m) in Hdrain.
  rewrite Hdrain;
    [| unfold is_int, int_min, int_max; lia | exact Hmax | exact Hlen].
  now rewrite truncated_fits.
Qed.

Lemma drain_CounterSource_fits_witness :
  drain (CounterSource.mk 0 (Z.of_nat 3)) [8; 9; 8; 1]
  = Ok (lines ["value-0"; "value-1"; "value-2"]%string, Some EOF).
Proof.
  refine (@drain_CounterSource_fits 3 [8; 9; 8; 1] _ _ _).
  - unfold int_max. cbn. lia.
  - cbn. lia.
  - intros k Hk.
    destruct k as [|[|[|k]]]; cbn; lia.
Defined.

(** C2 as stated fails: with one-byte buffers a source built to produce
    "value-0\n" hands out "v" and then reports [EOF]. *)
Lemma small_buffers_lose_bytes :
  Forall (fun k => 1 <= k) [1; 1] /\
  drain (CounterSource.mk 0 1) [1; 1] = Ok (["v"]%byte, Some EOF) /\
  records 0 1 = lines ["value-0"%string] /\
  ["v"]%byte <> records 0 1.
Proof.
  split; [repeat constructor|]. split; [reflexivity|].
  split; [reflexivity | discriminate].
Qed.

(** ** HeaderOnce (section 6) *)

Section HeaderOnceOver.

Context {R : Type} {upstream : Reader R}.

Lemma HeaderOnce_Read_first (up : R) (p : list byte) :
  Read (HeaderOnce.mk up false) p
  = Ok (Readout (HeaderOnce.mk up true)
                (fst (copy p header)) (snd (copy p header)) None).
Proof.
  unfold Read at 1, HeaderOnce_Reader, HeaderOnce.Read.
  cbn [HeaderOnce.done HeaderOnce.r negb].
  now destruct (copy p header).
Qed.

Lemma HeaderOnce_Read_done (up : R) (p : list byte) :
  Read (HeaderOnce.mk up true) p = delegated (Read up p).
Proof.
  unfold Read at 1, HeaderOnce_Reader, HeaderOnce.Read.
  cbn [HeaderOnce.done HeaderOnce.r negb].
  now destruct (Read up p).
Qed.

Lemma Reads_HeaderOnce_done (ps : list (list byte)) :
  forall up : R,
    Reads (HeaderOnce.mk up true) ps = map delegated (Reads up ps).
Proof.
  induction ps as [|p ps IH]; intros up; cbn [Reads map]; [reflexivity|].
  rewrite HeaderOnce_Read_done.
  destruct (Read up p) as [o|]; cbn [delegated map rd_next]; [|reflexivity].
  now rewrite IH.
Qed.

Lemma drain_HeaderOnce_done (sizes : list nat) :
  forall up : R, drain (HeaderOnce.mk up true) sizes = drain up sizes.
Proof.
  induction sizes as [|k sizes IH]; intros up; cbn [drain]; [reflexivity|].
  rewrite HeaderOnce_Read_done.
  destruct (Read up (make k)) as [o|]; cbn [delegated bind rd_buf rd_n rd_err rd_next];
    [|reflexivity].
  destruct (slice_to (rd_buf o) (rd_n o)); cbn [bind]; [|reflexivity].
  destruct (rd_err o); [reflexivity|]. now rewrite IH.
Qed.

(** The first call hands out what fits of the header and sets [done];
    everything after it is the wrapped reader's. *)
Lemma drain_HeaderOnce_first (up : R) (k : nat) (sizes : list nat) :
  drain (HeaderOnce.mk up false) (k :: sizes)
  = (do more <- drain up sizes; Ok (firstn k header ++ fst more, snd more)).
Proof.
  cbn [drain]. rewrite HeaderOnce_Read_first.
  cbn [bind rd_buf rd_n rd_err rd_next].
  rewrite slice_of_copy, make_length. cbn [bind].
  now rewrite drain_HeaderOnce_done.
Qed.

(** C3, as the code has it.  [HeaderOnce] keeps one flag and no offset:
    when the buffer of the first call holds the eight bytes of the
    header, the chunks put together are the header followed by what the
    wrapped reader yields to the remaining calls, and by nothing else. *)
Theorem HeaderOnce_prologue (up : R) (k : nat) (sizes : list nat) :
  length header <= k ->
  drain (HeaderOnce.mk up false) (k :: sizes)
  = (do more <- drain up sizes; Ok (header ++ fst more, snd more)).
Proof.
  intros Hk. rewrite drain_HeaderOnce_first.
  now rewrite firstn_all2 by exact Hk.
Qed.

(** C9. A call on a [HeaderOnce] whose flag is unset returns the header
    bytes without touching the wrapped reader; after any call that
    returns, [done] is set, and the calls that follow are, one for one,
    the wrapped reader's calls on the same buffers: same bytes, same
    count, same error, with [done] still set around the reader's new
    state. *)
Theorem HeaderOnce_delegates (h : HeaderOnce.t R) (p : list byte) :
  (HeaderOnce.done h = false ->
   Read h p
   = Ok (Readout (HeaderOnce.mk (HeaderOnce.r h) true)
                 (fst (copy p header)) (snd (copy p header)) None)) /\
  (forall o, Read h p = Ok o ->
     HeaderOnce.done (rd_next o) = true /\
     forall ps,
       Reads (rd_next o) ps
       = map delegated (Reads (HeaderOnce.r (rd_next o)) ps)).
Proof.
  destruct h as [up d]. split.
  - cbn [HeaderOnce.done HeaderOnce.r]. intros ->. apply HeaderOnce_Read_first.
  - intros o Ho.
    assert (Hnext : rd_next o = HeaderOnce.mk (HeaderOnce.r (rd_next o)) true).
    { destruct d.
      - rewrite HeaderOnce_Read_done in Ho.
        destruct (Read up p); [|discriminate].
        now injection Ho as <-.
      - rewrite HeaderOnce_Read_first in Ho. now injection Ho as <-. }
    split; [now rewrite Hnext|].
    intros ps. rewrite Hnext at 1. apply Reads_HeaderOnce_done.
Qed.

End HeaderOnceOver.

Lemma HeaderOnce_prologue_witness :
  length header <= 8 /\
  drain (HeaderOnce.mk (CounterSource.mk 0 1) false) [8; 8; 8]
  = Ok (lines ["id,name"; "value-0"]%string, Some EOF).
Proof.
  split; [cbn; lia|].
  refine (@HeaderOnce_prologue _ _ (CounterSource.mk 0 1) 8 [8; 8] _).
  cbn. lia.
Defined.

(** C3 as stated fails for buffers shorter than the header: with seven
    bytes (or one) per call the rest of the header is dropped, and the
    bytes of the wrapped reader follow the part that fitted. *)
Lemma short_buffer_cuts_header :
  drain (HeaderOnce.mk (CounterSource.mk 0 1) false) [7; 7; 7]
  = Ok (String.list_byte_of_string "id,namevalue-0", Some EOF) /\
  drain (HeaderOnce.mk (CounterSource.mk 0 1) false) [1; 1; 1]
  = Ok (String.list_byte_of_string "iv", Some EOF) /\
  firstn (length header) (String.list_byte_of_string "id,namevalue-0")
  <> header /\
  firstn (length header) (String.list_byte_of_string "iv") <> header.
Proof.
  split; [reflexivity|]. split; [reflexivity|]. split; discriminate.
Qed.

Lemma HeaderOnce_delegates_witness :
  Reads (HeaderOnce.mk (CounterSource.mk 0 1) true) [make 8; make 8]
  = map delegated (Reads (CounterSource.mk 0 1) [make 8; make 8]).
Proof.
  exact (proj2 (proj2 (HeaderOnce_delegates
                         (HeaderOnce.mk (CounterSource.mk 0 1) false) (make 8))
                      _ eq_refl)
               [make 8; make 8]).
Defined.

(** ** End of stream (sections 4 to 6) *)

Lemma sticky_CounterSource : sticky CounterSource.t.
Proof.
  intros s p o H He q.
  unfold Read, CounterSource_Reader, CounterSource.Read in H.
  destruct (Z.geb_spec (CounterSource.i s) (CounterSource.max s)) as [Hge|Hlt].
  - injection H as <-. cbn [rd_next]. apply CounterSource_Read_eof. lia.
  - destruct (copy p (Sprintf_value (CounterSource.i s))).
    injection H as <-. discriminate He.
Qed.

Section Sources.

Context {tables : UnicodeTables}.

Lemma sticky_Uppercase (R : Type) {rd : Reader R} :
  sticky R -> sticky (Uppercase.t R).
Proof.
  intros HR s p o H He q.
  unfold Read at 1, Uppercase_Reader, Uppercase.Read in H.
  destruct (Read (Uppercase.r s) (make 4096)) as [o'|] eqn:Hup;
    cbn [bind] in H; [|discriminate].
  assert (Ho : rd_next o = Uppercase.mk (rd_next o') /\ rd_err o = rd_err o').
  { destruct (0 <? rd_n o').
    - destruct (slice_to (rd_buf o') (rd_n o')); cbn [bind] in H; [|discriminate].
      destruct (copy p (bytes_ToUpper a)). now injection H as <-.
    - now injection H as <-. }
  destruct Ho as [-> Herr]. rewrite Herr in He.
  unfold Read at 1, Uppercase_Reader, Uppercase.Read. cbn [Uppercase.r].
  now rewrite (HR _ _ _ Hup He).
Qed.

Lemma sticky_HeaderOnce (R : Type) {rd : Reader R} :
  sticky R -> sticky (HeaderOnce.t R).
Proof.
  intros HR [up d] p o H He q. destruct d.
  - rewrite HeaderOnce_Read_done in H.
    destruct (Read up p) as [o'|] eqn:Hup; [|discriminate].
    injection H as <-. cbn [rd_next rd_err] in *.
    rewrite HeaderOnce_Read_done. now rewrite (HR _ _ _ Hup He).
  - rewrite HeaderOnce_Read_first in H. injection H as <-. discriminate He.
Qed.

Lemma Source_sticky (R : Type) (rd : Reader R) : Source rd -> sticky R.
Proof.
  induction 1.
  - exact sticky_CounterSource.
  - now apply sticky_Uppercase.
  - now apply sticky_HeaderOnce.
Qed.

(** X14. No source of the notes panics: every call returns, keeps the length of
the buffer and reports at most 4096 bytes, or the length of the buffer
where that is more. *)
Lemma Source_returns (R : Type) (rd : Reader R) :
Source rd ->
forall s p, exists o,
  Read s p = Ok o /\ length (rd_buf o) = length p /\
  rd_n o <= Nat.max (length p) 4096.
Proof.
induction 1 as [|R rd HS IH|R rd HS IH]; intros s p.
- unfold Read, CounterSource_Reader, CounterSource.Read.
  destruct (CounterSource.i s >=? CounterSource.max s)%Z.
  + eexists. split; [reflexivity|]. cbn [rd_buf rd_n]. lia.
  + pose proof (copy_length p (Sprintf_value (CounterSource.i s))) as Hlen.
    pose proof (copy_count p (Sprintf_value (CounterSource.i s))) as Hcnt.
    destruct (copy p (Sprintf_value (CounterSource.i s))) as [p' n].
    cbn [fst snd] in Hlen, Hcnt.
    eexists. split; [reflexivity|]. cbn [rd_buf rd_n]. lia.
- destruct (IH (Uppercase.r s) (make 4096)) as (o' & Hup & Hlen & Hn).
  rewrite make_length in Hlen, Hn.
  unfold Read at 1, Uppercase_Reader, Uppercase.Read.
  rewrite Hup. cbn [bind]. destruct (0 <? rd_n o').
  + unfold slice_to. rewrite Hlen.
    destruct (Nat.leb_spec (rd_n o') 4096); [|lia]. cbn [bind].
    pose proof (copy_length p (bytes_ToUpper (firstn (rd_n o') (rd_buf o'))))
      as Hp.
    destruct (copy p (bytes_ToUpper (firstn (rd_n o') (rd_buf o')))) as [p' n].
    cbn [fst] in Hp.
    eexists. split; [reflexivity|]. cbn [rd_buf rd_n]. lia.
  + eexists. split; [reflexivity|]. cbn [rd_buf rd_n]. lia.
- destruct s as [up d]. destruct d.
  + rewrite HeaderOnce_Read_done.
    destruct (IH up p) as (o' & Hup & Hlen & Hn). rewrite Hup.
    eexists. split; [reflexivity|]. cbn [rd_buf rd_n]. lia.
  + rewrite HeaderOnce_Read_first.
    eexists. split; [reflexivity|]. cbn [rd_buf rd_n].
    rewrite copy_length, copy_count. lia.
Qed.

(** C5. For every source of the notes ([CounterSource], and any stack of
    [Uppercase] and [HeaderOnce] over one): once a [Read] has reported
    [EOF], every later call, whatever the buffers, reports [EOF] again
    with zero bytes, and leaves the buffer and the source as they
    were. *)
Theorem eof_sticky (R : Type) (rd : Reader R) :
  Source rd ->
  forall s p o,
    Read s p = Ok o -> rd_err o = Some EOF ->
    forall ps,
      Reads (rd_next o) ps
      = map (fun q => Ok (Readout (rd_next o) q 0 (Some EOF))) ps.
Proof.
  intros HS s p o Hread Herr ps.
  pose proof (Source_sticky HS _ _ Hread Herr) as Hq.
  induction ps as [|q ps IH]; cbn [Reads map]; [reflexivity|].
  rewrite Hq. cbn [rd_next]. now rewrite IH.
Qed.

End Sources.

Lemma eof_sticky_witness :
  Reads (rd := Pipeline_Reader (tables := no_case_tables))
        (drained 3) [make 4; make 2]
  = [Ok (Readout (drained 3) (make 4) 0 (Some EOF));
     Ok (Readout (drained 3) (make 2) 0 (Some EOF))].
Proof.
  refine (@eof_sticky no_case_tables Pipeline _ _ (drained 3) (make 8)
            (Readout (drained 3) (make 8) 0 (Some EOF)) eq_refl eq_refl
            [make 4; make 2]).
  apply Source_HeaderOnce, Source_Uppercase, Source_CounterSource.
Defined.

(** ** Uppercase (section 5) *)

(** The count and the error [Uppercase] returns are those of the one call
    it makes on the wrapped reader, with its own buffer of 4096 bytes. *)
Lemma Uppercase_Read_count {tables : UnicodeTables} (R : Type)
    {rd : Reader R} (u : Uppercase.t R) (p : list byte) (o : readout (Uppercase.t R)) :
  Read u p = Ok o ->
  exists o', Read (Uppercase.r u) (make 4096) = Ok o' /\
             rd_n o = rd_n o' /\ rd_err o = rd_err o' /\
             length (rd_buf o) = length p.
Proof.
  intros H. unfold Read at 1, Uppercase_Reader, Uppercase.Read in H.
  destruct (Read (Uppercase.r u) (make 4096)) as [o'|]; cbn [bind] in H;
    [|discriminate].
  exists o'. split; [reflexivity|].
  destruct (0 <? rd_n o').
  - destruct (slice_to (rd_buf o') (rd_n o')); cbn [bind] in H; [|discriminate].
    pose proof (copy_length p (bytes_ToUpper a)) as Hlen.
    destruct (copy p (bytes_ToUpper a)). injection H as <-. now cbn in *.
  - injection H as <-. now cbn.
Qed.

(** C4 at a short buffer.  [Uppercase] over a fresh [CounterSource], read
    with a buffer of three bytes: the wrapped reader is read with 4096
    bytes and yields the eight bytes of "value-0\n"; [Uppercase] returns
    the count 8, while the caller's buffer has room for, and receives,
    the three bytes "VAL". *)
Theorem Uppercase_short_buffer {tables : UnicodeTables} :
  Read (CounterSource.mk 0 3) (make 4096)
  = Ok (Readout (CounterSource.mk 1 3)
                (lines ["value-0"%string] ++ make 4088) 8 None) /\
  Read (Uppercase.mk (CounterSource.mk 0 3)) (make 3)
  = Ok (Readout (Uppercase.mk (CounterSource.mk 1 3))
                ["V"; "A"; "L"]%byte 8 None).
Proof.
  split; reflexivity.
Qed.

(** ** The copy loop and cancellation (sections 8, 9 and 15) *)

(** C6, as the code has it.  [io.Copy] has no cancellation check: whatever
    the state of the context, the run over the pipeline with [max = m]
    goes on to the end of the stream (one turn for the header, one for
    each record, one for [EOF]), returns success, leaves header and
    records in the sink and the source read to its end. *)
Theorem copy_ignores_cancellation {tables : UnicodeTables}
    (ctx : Context) (m fuel : nat) :
  (Z.of_nat m <= int_max)%Z -> m + 2 <= fuel ->
  exists c,
    run_pipeline ctx fuel (Z.of_nat m) = Some (Ok c) /\
    copy_err c = None /\
    collected (dst_after c) = header ++ upper_records 0 m /\
    src_after c = drained (Z.of_nat m).
Proof.
  intros Hmax Hfuel. unfold run_pipeline.
  destruct (@io_Copy_pipeline tables m fuel Hmax Hfuel) as [w Hrun].
  eexists. split; [exact Hrun|]. repeat split.
Qed.

Lemma copy_ignores_cancellation_witness :
  (Z.of_nat 3 <= int_max)%Z /\ 3 + 2 <= 5 /\
  exists c,
    run_pipeline (tables := no_case_tables) (cancel Background) 5 (Z.of_nat 3)
    = Some (Ok c) /\
    copy_err c = None /\
    collected (dst_after c) = header ++ upper_records 0 3 /\
    src_after c = drained (Z.of_nat 3).
Proof.
  assert (H1 : (Z.of_nat 3 <= int_max)%Z) by (unfold int_max; cbn; lia).
  assert (H2 : 3 + 2 <= 5) by lia.
  split; [exact H1|]. split; [exact H2|].
  exact (@copy_ignores_cancellation no_case_tables (cancel Background) 3 5 H1 H2).
Defined.

(** C6 as stated fails: with the context cancelled before the run starts,
    the loop still reads the source to its end, hands all 32 bytes to the
    sink and returns success, not a cancelled status. *)
Lemma cancelled_run_completes :
  ctx_done (cancel Background) = true /\
  run_pipeline (tables := no_case_tables) (cancel Background) 5 3
  = Some (Ok (Copied 32 None
                {| collected :=
                     lines ["id,name"; "VALUE-0"; "VALUE-1"; "VALUE-2"]%string |}
                (drained 3))) /\
  None <> Some Canceled.
Proof.
  split; [reflexivity|]. split; [vm_compute; reflexivity | discriminate].
Qed.

(** ** The buffered writer (section 10) *)

Ltac bufio_fields :=
  cbn [bufio.buf bufio.size bufio.err bufio.wr bufio.is_nil
       wr_n wr_err wr_next collected andb fst snd].

Ltac count_is_length p :=
  match goal with
  | |- Writeout _ ?n None = _ =>
      replace n with (length p) by (cbn [length]; lia); reflexivity
  end.

Ltac bufio_done :=
  unfold bufio_ok; bufio_fields; cbn [length app];
  repeat split;
  rewrite ?length_app, ?app_nil_r, <- ?app_assoc, ?firstn_skipn;
  try reflexivity; try lia.

Lemma bufio_Flush_Collector (b : bufio.t Collector) :
  bufio_ok b ->
  bufio.Flush b
  = (bufio.mk None [] (bufio.size b) {| collected := accepted b |}, None).
Proof.
  destruct b as [e buf size [sink]]. unfold bufio_ok, accepted. bufio_fields.
  intros (-> & Hlen & Hsz). unfold bufio.Flush, bufio.Buffered. bufio_fields.
  destruct (Nat.eqb_spec (length buf) 0) as [Hempty|Hsome].
  - apply length_zero_iff_nil in Hempty. subst buf. now rewrite app_nil_r.
  - unfold Write, Collector_Writer. bufio_fields.
    now rewrite Nat.ltb_irrefl.
Qed.

Lemma bufio_Write_loop_stops (W : Type) (downstream : Writer W) (fuel : nat)
    (b : bufio.t W) (p : list byte) (nn : nat) :
  (bufio.Available b <? length p) && bufio.is_nil (bufio.err b) = false ->
  bufio.Write_loop fuel b p nn = (b, p, nn).
Proof.
  intros H. destruct fuel; cbn [bufio.Write_loop]; [reflexivity|].
  now rewrite H.
Qed.

Lemma bufio_Write_Collector (b : bufio.t Collector) (p : list byte) :
  bufio_ok b ->
  exists b',
    bufio.Write b p = Writeout b' (length p) None /\
    bufio_ok b' /\
    accepted b' = accepted b ++ p /\
    bufio.size b' = bufio.size b.
Proof.
  destruct b as [e buf size [sink]]. unfold bufio_ok at 1, accepted. bufio_fields.
  intros (-> & Hlen & Hsz).
  unfold bufio.Write. cbn [bufio.Write_loop].
  unfold bufio.Available at 1, bufio.Buffered at 1. bufio_fields.
  destruct (Nat.ltb_spec (size - length buf) (length p)) as [Hbig|Hfit]; bufio_fields.
  - destruct (Nat.eqb_spec (length buf) 0) as [Hempty|Hsome].
    + unfold Write, Collector_Writer. bufio_fields.
      rewrite skipn_all.
      rewrite bufio_Write_loop_stops by reflexivity.
      bufio_fields. unfold bufio.Available. bufio_fields. cbn [length].
      rewrite Nat.min_0_r. cbn [firstn]. rewrite !app_nil_r.
      apply length_zero_iff_nil in Hempty. subst buf.
      eexists. split; [count_is_length p|]. bufio_done.
    + unfold bufio.Available. bufio_fields.
      rewrite Nat.min_l by lia.
      set (filled := bufio.mk None (buf ++ firstn (size - length buf) p) size
                              {| collected := sink |}).
      assert (Hfilled : bufio_ok filled).
      { unfold bufio_ok, filled. bufio_fields.
        rewrite length_app, length_firstn. repeat split; lia. }
      rewrite (@bufio_Flush_Collector filled Hfilled).
      unfold accepted, filled. bufio_fields.
      assert (Hrest : length (skipn (size - length buf) p)
                      = length p - (size - length buf))
        by apply length_skipn.
      destruct (length p) as [|k] eqn:Hp; [lia|].
      cbn [bufio.Write_loop].
      unfold bufio.Available, bufio.Buffered. bufio_fields.
      cbn [length Nat.eqb]. rewrite Nat.sub_0_r.
      destruct (Nat.ltb_spec size (length (skipn (size - length buf) p)))
        as [Hmore|Hless]; bufio_fields.
      * unfold Write, Collector_Writer. bufio_fields.
        rewrite skipn_all.
        rewrite bufio_Write_loop_stops by reflexivity.
        bufio_fields. cbn [length].
        rewrite Nat.min_0_r. cbn [firstn].
        eexists.
        split; [match goal with
                | |- Writeout _ ?n None = _ =>
                    replace n with (S k) by (cbn [length]; lia); reflexivity
                end|].
        bufio_done.
      * cbn [length]. rewrite Nat.sub_0_r, Nat.min_r by lia. rewrite firstn_all.
        eexists.
        split; [match goal with
                | |- Writeout _ ?n None = _ =>
                    replace n with (S k) by (cbn [length]; lia); reflexivity
                end|].
        bufio_done.
  - unfold bufio.Available. bufio_fields.
    rewrite Nat.min_r by lia. rewrite firstn_all.
    eexists. split; [reflexivity|]. bufio_done.
Qed.


Lemma bufio_NewWriter_ok (file : Collector) : bufio_ok (bufio.NewWriter file).
Proof. unfold bufio_ok, bufio.NewWriter. cbn. repeat split; lia. Qed.


(** Section 10 itself: when the function returns, the file holds the
    line. *)
Lemma buffered_hello_flushed (file : Collector) :
  buffered_hello file
  = {| collected := collected file ++ lines ["hello"%string] |}.
Proof.
  unfold buffered_hello, Fprintln.
  destruct (@bufio_Write_Collector (bufio.NewWriter file)
              (lines ["hello"%string]) (bufio_NewWriter_ok file))
    as (b' & Hw & Hok & Hacc & _).
  change (Write (bufio.NewWriter file) (lines ["hello"%string]))
    with (bufio.Write (bufio.NewWriter file) (lines ["hello"%string])).
  rewrite Hw. cbn [wr_next].
  rewrite (@bufio_Flush_Collector _ Hok), Hacc.
  unfold accepted, bufio.NewWriter. cbn [fst bufio.wr bufio.buf].
  now rewrite app_nil_r.
Qed.

(** [io.Copy] onto a buffered writer that holds nothing, over a file:
    the writer steps aside and the file's own [ReadFrom] does the copy,
    so every byte goes straight to the file and none is buffered. *)
Lemma io_Copy_bufio_steps_aside (R : Type) (rd : Reader R) (fuel : nat)
    (file : Collector) (spare : list byte) (src : R) :
  io_Copy_bufio (Some File_ReadFrom) (S fuel) (bufio.NewWriter file) spare src
  = match io_Copy fuel file src with
    | None => None
    | Some Panic => Some Panic
    | Some (Ok c) =>
        Some (Ok (Copied (wrap (0 + written c)) (copy_err c)
                    (bufio.mk (copy_err c) [] 4096 (dst_after c))
                    (src_after c)))
    end.
Proof. reflexivity. Qed.


(** The deferred [Flush] then hands the sink all of it. *)
Lemma copied_bytes_flushed :
  bufio.Flush
    (bufio.mk None
       (lines ["hello"; "id,name"; "VALUE-0"; "VALUE-1"; "VALUE-2"]%string)
       4096 {| collected := [] |})
  = (bufio.mk None [] 4096
       {| collected :=
            lines ["hello"; "id,name"; "VALUE-0"; "VALUE-1";
                   "VALUE-2"]%string |},
     None).
Proof.
  vm_compute. reflexivity.
Qed.


(** ** The pipe (section 11) *)

Lemma Pipe_steps_trans (c1 c2 c3 : Pipe.config) :
  Pipe.steps c1 c2 -> Pipe.steps c2 c3 -> Pipe.steps c1 c3.
Proof.
  induction 1 as [c|c1 c2 c2' Hstep _ IH]; intros H23; [exact H23|].
  exact (Pipe.steps_step Hstep (IH H23)).
Qed.

Lemma Pipe_next_step (c c' : Pipe.config) :
  Pipe.next c = Some c' -> Pipe.step c c'.
Proof.
  destruct c as [ops [o d] ks out e]. unfold Pipe.next.
  cbn [Pipe.ended Pipe.sizes Pipe.pipe Pipe.producer Pipe.received].
  intros H.
  destruct o as [b|].
  - destruct e; [discriminate|]. destruct ks as [|k ks]; [discriminate|].
    destruct d; injection H as <-; constructor.
  - destruct e as [e|].
    + destruct ops as [|[b|] ops]; [discriminate| |]; injection H as <-.
      * destruct d; constructor.
      * constructor.
    + destruct ks as [|k ks].
      * destruct ops as [|[b|] ops]; [discriminate| |]; injection H as <-.
        -- destruct d; constructor.
        -- constructor.
      * destruct d.
        -- injection H as <-. constructor.
        -- destruct ops as [|[b|] ops]; [discriminate| |]; injection H as <-;
             constructor.
Qed.

Lemma Pipe_run_steps (fuel : nat) :
  forall c, Pipe.steps c (Pipe.run fuel c).
Proof.
  induction fuel as [|fuel IH]; intros c; cbn [Pipe.run]; [constructor|].
  destruct (Pipe.next c) as [c'|] eqn:Hnext; [|constructor].
  exact (Pipe.steps_step (Pipe_next_step _ Hnext) (IH c')).
Qed.

(** Section 11 itself, run by the scheduler with the 32 KiB buffers of
    [io.Copy]: the reader gets [hello] in one read and [EOF] in the
    next. *)
Lemma section11_run :
  Pipe.run 4 (Pipe.start [["h"; "e"; "l"; "l"; "o"]%byte]
                         [32 * 1024; 32 * 1024])
  = Pipe.Config [] (Pipe.mk None true) []
                ["h"; "e"; "l"; "l"; "o"]%byte (Some EOF).
Proof. vm_compute. reflexivity. Qed.

Lemma Pipe_pending_left_over (b : list byte) (k : nat) d :
  Pipe.pending (Pipe.mk (Pipe.left_over b k) d) = skipn k b.
Proof.
  unfold Pipe.pending, Pipe.left_over. cbn [Pipe.offered].
  destruct (Nat.leb_spec (length b) k); [|reflexivity].
  now rewrite skipn_all2.
Qed.

Lemma Pipe_Inv_start (chunks : list (list byte)) (ks : list nat) :
  Pipe.Inv (concat chunks) (Pipe.start chunks ks).
Proof.
  unfold Pipe.Inv, Pipe.start.
  cbn [Pipe.received Pipe.pipe Pipe.producer Pipe.ended Pipe.new Pipe.done
       Pipe.pending Pipe.offered app].
  split; [|split; [now exists chunks | intros H; now contradiction H]].
  induction chunks as [|b chunks IH]; cbn [map app Pipe.unsent concat];
    [reflexivity | now rewrite IH].
Qed.

Lemma Pipe_Inv_step (data : list byte) (c c' : Pipe.config) :
  Pipe.Inv data c -> Pipe.step c c' -> Pipe.Inv data c'.
Proof.
  unfold Pipe.Inv. intros (Hdata & Hshape & Hend) Hstep.
  destruct Hstep as [b ops ks out e|b ops ks out e|ops d ks out e
                    |ops b k ks out|ops o k ks out];
    cbn [Pipe.received Pipe.pipe Pipe.producer Pipe.ended Pipe.done
         Pipe.offered Pipe.unsent] in *.
  - destruct Hshape as [ws Hws]. unfold Pipe.pending in *.
    cbn [Pipe.offered app] in *.
    destruct ws as [|b' ws]; [discriminate|]. cbn [map app] in Hws.
    injection Hws as <- ->.
    split; [exact Hdata|]. split; [now exists ws|].
    intros H. destruct (Hend H) as [_ Hd]. discriminate.
  - destruct Hshape as [Hnil _]. discriminate.
  - unfold Pipe.pending in *. cbn [Pipe.offered app] in *.
    split; [exact Hdata|]. split.
    + destruct d.
      * destruct Hshape as [Hnil _]. discriminate.
      * destruct Hshape as [ws Hws]. destruct ws as [|b' ws]; [|discriminate].
        cbn [map app] in Hws. now injection Hws as <-.
    + intros H. destruct (Hend H) as [He _]. split; [exact He|reflexivity].
  - rewrite Pipe_pending_left_over. unfold Pipe.pending in Hdata.
    cbn [Pipe.offered] in Hdata.
    split; [|split; [exact Hshape | intros H; now contradiction H]].
    rewrite <- Hdata, <- !app_assoc. f_equal.
    now rewrite app_assoc, firstn_skipn.
  - split; [exact Hdata|]. split; [exact Hshape|]. intros _. now split.
Qed.

Lemma Pipe_Inv_steps (data : list byte) (c c' : Pipe.config) :
  Pipe.Inv data c -> Pipe.steps c c' -> Pipe.Inv data c'.
Proof.
  intros Hinv Hsteps. induction Hsteps as [c|c1 c2 c3 Hstep _ IH];
    [exact Hinv|].
  apply IH. exact (Pipe_Inv_step Hinv Hstep).
Qed.

(** The reader takes a write in progress to its end, in order, in at most
    one read per byte (one read for an empty write). *)
Lemma Pipe_read_offered (n : nat) :
  forall (b : list byte) ops ks out,
    length b <= n ->
    Forall (fun k => 1 <= k) ks -> length b < length ks ->
    exists ks',
      Pipe.steps (Pipe.Config ops (Pipe.mk (Some b) false) ks out None)
                 (Pipe.Config ops (Pipe.mk None false) ks' (out ++ b) None) /\
      Forall (fun k => 1 <= k) ks' /\
      length ks <= length ks' + length b + 1.
Proof.
  induction n as [|n IH]; intros b ops ks out Hn Hks Hlen;
    (destruct ks as [|k ks]; [cbn in Hlen; lia|]);
    apply Forall_cons_iff in Hks as [Hk Hks]; cbn [length] in Hlen.
  - assert (b = []) by (apply length_zero_iff_nil; lia). subst b.
    exists ks. split; [|split; [exact Hks | cbn; lia]].
    eapply Pipe.steps_step; [apply Pipe.step_Read|].
    unfold Pipe.left_over. cbn [length Nat.leb firstn].
    rewrite firstn_nil. constructor.
  - destruct (Nat.leb_spec (length b) k) as [Hall|Hmore].
    + exists ks. split; [|split; [exact Hks | cbn [length]; lia]].
      eapply Pipe.steps_step; [apply Pipe.step_Read|].
      unfold Pipe.left_over.
      destruct (Nat.leb_spec (length b) k); [|lia].
      rewrite firstn_all2 by exact Hall. constructor.
    + destruct (IH (skipn k b) ops ks (out ++ firstn k b))
        as (ks' & Hrun & Hks' & Hcount).
      * rewrite length_skipn. lia.
      * exact Hks.
      * rewrite length_skipn. lia.
      * exists ks'. rewrite length_skipn in Hcount.
        split; [|split; [exact Hks' | cbn [length]; lia]].
        eapply Pipe.steps_step; [apply Pipe.step_Read|].
        unfold Pipe.left_over.
        destruct (Nat.leb_spec (length b) k); [lia|].
        now rewrite <- app_assoc, firstn_skipn in Hrun.
Qed.

Lemma Pipe_write_all (ws : list (list byte)) :
  forall ks out,
    Forall (fun k => 1 <= k) ks ->
    length (concat ws) + length ws < length ks ->
    exists ks',
      Pipe.steps (Pipe.Config (map Pipe.Write ws ++ [Pipe.Close]) Pipe.new
                              ks out None)
                 (Pipe.Config [Pipe.Close] Pipe.new ks' (out ++ concat ws)
                              None) /\
      Forall (fun k => 1 <= k) ks' /\
      length ks <= length ks' + length (concat ws) + length ws.
Proof.
  induction ws as [|b ws IH]; intros ks out Hks Hlen.
  - exists ks. cbn [map app concat length]. rewrite app_nil_r.
    split; [constructor | split; [exact Hks | lia]].
  - cbn [map app concat length] in *. rewrite length_app in Hlen.
    destruct (@Pipe_read_offered (length b) b (map Pipe.Write ws ++ [Pipe.Close])
                ks out (le_n _) Hks ltac:(lia))
      as (ks1 & Hrun1 & Hks1 & Hcount1).
    destruct (IH ks1 (out ++ b) Hks1 ltac:(lia)) as (ks2 & Hrun2 & Hks2 & Hcount2).
    exists ks2. rewrite length_app.
    split; [|split; [exact Hks2 | lia]].
    eapply Pipe.steps_step; [apply Pipe.step_Write|].
    eapply Pipe_steps_trans; [exact Hrun1|].
    now rewrite <- app_assoc in Hrun2.
Qed.

Lemma Pipe_Enough_start (chunks : list (list byte)) (ks : list nat) :
  Forall (fun k => 1 <= k) ks ->
  length (concat chunks) + length chunks < length ks ->
  Pipe.Enough (Pipe.start chunks ks).
Proof.
  intros Hks Hlen. split; [exact Hks|]. intros _.
  unfold Pipe.start, Pipe.reads_pending.
  cbn [Pipe.producer Pipe.pipe Pipe.sizes Pipe.new Pipe.offered].
  enough (H : Pipe.reads_due (map Pipe.Write chunks ++ [Pipe.Close])
              = length (concat chunks) + length chunks) by lia.
  clear. induction chunks as [|b chunks IH];
    cbn [map app Pipe.reads_due concat length]; [reflexivity|].
  rewrite IH, length_app. lia.
Qed.

Lemma Pipe_Enough_step (c c' : Pipe.config) :
  Pipe.Enough c -> Pipe.step c c' -> Pipe.Enough c'.
Proof.
  unfold Pipe.Enough, Pipe.reads_pending. intros [Hks Hlen] Hstep.
  destruct Hstep as [b ops ks out e|b ops ks out e|ops d ks out e
                    |ops b k ks out|ops o k ks out];
    cbn [Pipe.sizes Pipe.ended Pipe.producer Pipe.pipe Pipe.offered
         Pipe.reads_due length] in *.
  - split; [exact Hks|]. intros He. specialize (Hlen He). lia.
  - split; [exact Hks|]. intros He. specialize (Hlen He). lia.
  - split; [exact Hks|]. exact Hlen.
  - apply Forall_cons_iff in Hks as [Hk Hks]. split; [exact Hks|].
    intros _. specialize (Hlen eq_refl). unfold Pipe.left_over.
    destruct (Nat.leb_spec (length b) k); [lia|].
    rewrite length_skipn. lia.
  - apply Forall_cons_iff in Hks as [Hk Hks]. split; [exact Hks|].
    intros He. discriminate.
Qed.

Lemma Pipe_Enough_steps (c c' : Pipe.config) :
  Pipe.Enough c -> Pipe.steps c c' -> Pipe.Enough c'.
Proof.
  intros Hinv Hsteps. induction Hsteps as [c|c1 c2 c3 Hstep _ IH];
    [exact Hinv|].
  apply IH. exact (Pipe_Enough_step Hinv Hstep).
Qed.

(** Before the reader has seen [EOF], one of the two goroutines can
    move. *)
Lemma Pipe_progress (data : list byte) (c : Pipe.config) :
  Pipe.Inv data c -> Pipe.Enough c -> Pipe.ended c = None ->
  exists c', Pipe.step c c'.
Proof.
  intros (_ & Hshape & _) [_ Hlen] He. specialize (Hlen He).
  destruct c as [ops [o d] ks out e].
  cbn [Pipe.sizes Pipe.ended Pipe.producer Pipe.pipe Pipe.offered Pipe.done]
    in *.
  subst e. destruct ks as [|k ks]; [cbn [length] in Hlen; lia|].
  destruct d.
  - eexists. apply Pipe.step_Read_closed.
  - destruct o as [b|].
    + eexists. apply Pipe.step_Read.
    + destruct Hshape as [ws ->]. destruct ws as [|b ws]; cbn [map app].
      * eexists. apply Pipe.step_Close.
      * eexists. apply Pipe.step_Write.
Qed.

(** C8. The producer of section 11 writes its chunks and then closes the
    write side, beside a reader that offers buffers of one byte or more,
    enough of them.  However the two goroutines are interleaved: what
    the reader has received is at every moment a prefix of the bytes
    written, in the order written; a read reports [io.EOF] only once
    every byte written has been received, so that closing loses none;
    until the reader has seen [io.EOF] one of the two can always move, so
    that no run stops short of it; and the run in which the reader ends
    on [io.EOF] with all the bytes exists. *)
Theorem pipe_drains_then_EOF (chunks : list (list byte)) (ks : list nat) :
  Forall (fun k => 1 <= k) ks ->
  length (concat chunks) + length chunks < length ks ->
  (forall c, Pipe.steps (Pipe.start chunks ks) c ->
             exists rest, concat chunks = Pipe.received c ++ rest) /\
  (forall c, Pipe.steps (Pipe.start chunks ks) c ->
             Pipe.ended c <> None ->
             Pipe.ended c = Some EOF /\ Pipe.received c = concat chunks) /\
  (forall c, Pipe.steps (Pipe.start chunks ks) c ->
             Pipe.ended c = None -> exists c', Pipe.step c c') /\
  (exists c, Pipe.steps (Pipe.start chunks ks) c /\
             Pipe.ended c = Some EOF /\ Pipe.received c = concat chunks).
Proof.
  intros Hks Hlen. split; [|split; [|split]].
  - intros c Hrun.
    destruct (Pipe_Inv_steps (Pipe_Inv_start chunks ks) Hrun) as (Hdata & _).
    eexists. symmetry. exact Hdata.
  - intros c Hrun Hend.
    destruct (Pipe_Inv_steps (Pipe_Inv_start chunks ks) Hrun)
      as (Hdata & Hshape & He).
    destruct (He Hend) as [Heof Hdone]. split; [exact Heof|].
    rewrite Hdone in Hshape. destruct Hshape as [Hops Hoff].
    unfold Pipe.pending in Hdata. rewrite Hops, Hoff in Hdata.
    cbn [Pipe.unsent] in Hdata. now rewrite !app_nil_r in Hdata.
  - intros c Hrun Hend.
    exact (Pipe_progress
             (Pipe_Inv_steps (Pipe_Inv_start chunks ks) Hrun)
             (Pipe_Enough_steps (Pipe_Enough_start chunks Hks Hlen) Hrun)
             Hend).
  - destruct (@Pipe_write_all chunks ks [] Hks Hlen)
      as (ks' & Hrun & Hks' & Hcount).
    destruct ks' as [|k ks']; [cbn [length] in Hcount; lia|].
    eexists. split; [|split].
    + eapply Pipe_steps_trans; [exact Hrun|].
      eapply Pipe.steps_step; [apply Pipe.step_Close|].
      eapply Pipe.steps_step; [apply Pipe.step_Read_closed|constructor].
    + reflexivity.
    + reflexivity.
Qed.

Lemma pipe_drains_then_EOF_witness :
  let hello := [["h"; "e"; "l"; "l"; "o"]%byte] in
  let ks := [2; 2; 2; 2; 2; 2; 2] in
  (forall c, Pipe.steps (Pipe.start hello ks) c ->
             exists rest, concat hello = Pipe.received c ++ rest) /\
  (forall c, Pipe.steps (Pipe.start hello ks) c ->
             Pipe.ended c <> None ->
             Pipe.ended c = Some EOF /\ Pipe.received c = concat hello) /\
  (forall c, Pipe.steps (Pipe.start hello ks) c ->
             Pipe.ended c = None -> exists c', Pipe.step c c') /\
  (exists c, Pipe.steps (Pipe.start hello ks) c /\
             Pipe.ended c = Some EOF /\ Pipe.received c = concat hello).
Proof.
  intros hello ks. apply (@pipe_drains_then_EOF hello ks).
  - repeat constructor.
  - cbn. lia.
Defined.


(** * More of the notes *)

(** ** Decimal text *)

Lemma digit_value_digit (d : Z) : (0 <= d < 10)%Z -> digit_value (digit d) = d.
Proof.
  intros H.
  assert (Hd : (d = 0 \/ d = 1 \/ d = 2 \/ d = 3 \/ d = 4 \/ d = 5 \/ d = 6
                \/ d = 7 \/ d = 8 \/ d = 9)%Z) by lia.
  repeat (destruct Hd as [Hd|Hd]; [subst; reflexivity | ]). now subst d.
Qed.

Lemma parse_digits_app (ds : list byte) (b : byte) :
  parse_digits (ds ++ [b]) = (10 * parse_digits ds + digit_value b)%Z.
Proof. unfold parse_digits. now rewrite fold_left_app. Qed.

(** The digit loop writes the digits of [u] in front of [acc], most
    significant first, and has fuel enough below [10 ^ fuel]. *)
Lemma format_digits_parse (fuel : nat) :
  forall u acc,
    (0 <= u < 10 ^ Z.of_nat fuel)%Z -> 0 < fuel ->
    exists ds,
      format_digits fuel u acc = ds ++ acc /\ parse_digits ds = u /\
      hd x30 ds <> x2d /\ ds <> [].
Proof.
  induction fuel as [|fuel IH]; intros u acc Hu Hfuel; [lia|].
  cbn [format_digits]. destruct (Z.ltb_spec u 10) as [Hsmall|Hbig].
  - exists [digit (u mod 10)]. rewrite Z.mod_small by lia.
    split; [reflexivity|]. split.
    + unfold parse_digits. cbn [fold_left]. rewrite digit_value_digit; lia.
    + split; [|discriminate]. cbn [hd].
      assert (Hd : (u = 0 \/ u = 1 \/ u = 2 \/ u = 3 \/ u = 4 \/ u = 5 \/ u = 6
                    \/ u = 7 \/ u = 8 \/ u = 9)%Z) by lia.
      repeat (destruct Hd as [Hd|Hd]; [subst; discriminate | ]). subst u. discriminate.
  - assert (Hfuel' : 0 < fuel).
    { destruct fuel; [|lia]. cbn in Hu. lia. }
    destruct (IH (u / 10)%Z (digit (u mod 10) :: acc)) as (ds & Hds & Hval & Hhd & Hne).
    + rewrite Nat2Z.inj_succ, Z.pow_succ_r in Hu by lia.
      split; [apply Z.div_pos; lia | apply Z.div_lt_upper_bound; lia].
    + exact Hfuel'.
    + exists (ds ++ [digit (u mod 10)]). rewrite <- app_assoc. split; [exact Hds|].
      split.
      * rewrite parse_digits_app, Hval, digit_value_digit
          by (apply Z.mod_pos_bound; lia).
        pose proof (Z.div_mod u 10). lia.
      * split; [|now destruct ds].
        destruct ds; [contradiction|exact Hhd].
Qed.

Lemma ParseInt_FormatInt (z : Z) :
  (- 10 ^ 20 < z < 10 ^ 20)%Z -> ParseInt (FormatInt z) = z.
Proof.
  intros Hz. unfold FormatInt. destruct (Z.ltb_spec z 0) as [Hneg|Hpos].
  - destruct (@format_digits_parse 20 (- z)%Z []) as (ds & Hds & Hval & _ & _);
      [change (Z.of_nat 20) with 20%Z; lia | lia |].
    rewrite Hds, app_nil_r. cbn [ParseInt]. lia.
  - destruct (@format_digits_parse 20 z []) as (ds & Hds & Hval & Hhd & Hne);
      [change (Z.of_nat 20) with 20%Z; lia | lia |].
    rewrite Hds, app_nil_r. unfold ParseInt.
    destruct ds as [|b ds]; [contradiction|]. cbn [hd] in Hhd.
    destruct b; try exact Hval. contradiction.
Qed.

Lemma Sprintf_value_injective (i j : Z) :
  is_int i -> is_int j -> Sprintf_value i = Sprintf_value j -> i = j.
Proof.
  unfold is_int, int_min, int_max. intros Hi Hj Heq.
  unfold Sprintf_value in Heq.
  apply app_inv_head, app_inv_tail in Heq.
  assert (Hi' : (- 10 ^ 20 < i < 10 ^ 20)%Z) by lia.
  assert (Hj' : (- 10 ^ 20 < j < 10 ^ 20)%Z) by lia.
  rewrite <- (ParseInt_FormatInt Hi'), <- (ParseInt_FormatInt Hj').
  now rewrite Heq.
Qed.

(** X2. Distinct counter values give distinct records: the text of a record
    determines the value it was formatted from, over the whole range of
    [int]. *)
Theorem Sprintf_value_distinct (i j : Z) :
  is_int i -> is_int j -> i <> j -> Sprintf_value i <> Sprintf_value j.
Proof.
  intros Hi Hj Hne Heq. apply Hne. now apply Sprintf_value_injective.
Qed.

Lemma Sprintf_value_distinct_witness :
  is_int (-1) /\ is_int int_max /\ (-1 <> int_max)%Z /\
  Sprintf_value (-1) <> Sprintf_value int_max.
Proof.
  assert (H1 : is_int (-1)) by (unfold is_int, int_min, int_max; lia).
  assert (H2 : is_int int_max) by (unfold is_int, int_min, int_max; lia).
  assert (H3 : (-1 <> int_max)%Z) by (unfold int_max; lia).
  split; [exact H1|]. split; [exact H2|]. split; [exact H3|].
  exact (@Sprintf_value_distinct (-1) int_max H1 H2 H3).
Defined.

(** ** Lines *)

Lemma format_digits_forallb (P : byte -> bool) :
  (forall d, P (digit d) = true) ->
  forall fuel u acc,
    forallb P acc = true -> forallb P (format_digits fuel u acc) = true.
Proof.
  intros Hd. induction fuel as [|fuel IH]; intros u acc Hacc;
    cbn [format_digits]; [exact Hacc|].
  assert (H : forallb P (digit (u mod 10) :: acc) = true)
    by (cbn [forallb]; now rewrite Hd, Hacc).
  destruct (u <? 10)%Z; [exact H | now apply IH].
Qed.

Lemma digit_not_newline (d : Z) : negb (Byte.eqb newline (digit d)) = true.
Proof.
  unfold digit.
  repeat match goal with
         | |- context [match ?x with _ => _ end] => destruct x
         end; reflexivity.
Qed.

Lemma line_count_app (s t : list byte) :
  line_count (s ++ t) = line_count s + line_count t.
Proof. unfold line_count. now rewrite filter_app, length_app. Qed.

Lemma line_count_none (s : list byte) :
  forallb (fun b => negb (Byte.eqb newline b)) s = true -> line_count s = 0.
Proof.
  unfold line_count. induction s as [|b s IH]; cbn [forallb filter];
    [reflexivity|].
  intros H. apply andb_true_iff in H as [Hb Hs].
  apply negb_true_iff in Hb. rewrite Hb. now apply IH.
Qed.

Lemma line_count_FormatInt (z : Z) : line_count (FormatInt z) = 0.
Proof.
  apply line_count_none. unfold FormatInt. destruct (z <? 0)%Z.
  - cbn [forallb]. rewrite format_digits_forallb;
      [reflexivity | exact digit_not_newline | reflexivity].
  - apply format_digits_forallb; [exact digit_not_newline | reflexivity].
Qed.

Lemma line_count_Sprintf_value (i : Z) : line_count (Sprintf_value i) = 1.
Proof.
  unfold Sprintf_value. rewrite !line_count_app, line_count_FormatInt.
  reflexivity.
Qed.

Lemma line_count_Upper_value (i : Z) : line_count (Upper_value i) = 1.
Proof.
  unfold Upper_value. rewrite !line_count_app, line_count_FormatInt.
  reflexivity.
Qed.

(** The records as text: [count] of them are [count] lines, and with the
    header in front, in upper case, one line more. *)
Lemma records_line_count (i : Z) (count : nat) :
  line_count (records i count) = count /\
  line_count (header ++ upper_records i count) = S count.
Proof.
  split.
  - revert i. induction count as [|count IH]; intros i; cbn [records];
      [reflexivity|].
    now rewrite line_count_app, line_count_Sprintf_value, IH.
  - rewrite line_count_app. change (line_count header) with 1.
    cbn [Nat.add]. f_equal.
    revert i. induction count as [|count IH]; intros i; cbn [upper_records];
      [reflexivity|].
    now rewrite line_count_app, line_count_Upper_value, IH.
Qed.

(** X3. What the code delivers, counted in lines.  A [CounterSource] with
    [max = m], drained with buffers that hold its records, yields exactly
    [m] newline bytes before [EOF]; [io.Copy] over the pipeline of
    section 9 leaves exactly [m + 1] in the sink: one line per record and
    the header line, neither wrapper adding or dropping a newline. *)
Theorem output_line_count {tables : UnicodeTables} (m fuel : nat)
    (sizes : list nat) :
  (Z.of_nat m <= int_max)%Z -> m + 2 <= fuel -> m < length sizes ->
  (forall k, k < m -> length (Sprintf_value (Z.of_nat k)) <= nth k sizes 0) ->
  (exists bytes,
     drain (CounterSource.mk 0 (Z.of_nat m)) sizes = Ok (bytes, Some EOF) /\
     line_count bytes = m) /\
  (exists c,
     io_Copy fuel {| collected := [] |} (withHeader (Z.of_nat m))
     = Some (Ok c) /\
     copy_err c = None /\
     line_count (collected (dst_after c)) = S m).
Proof.
  intros Hmax Hfuel Hlen Hfit. split.
  - exists (records 0 m). split; [|apply records_line_count].
    pose proof (@drain_CounterSource m sizes 0%Z) as Hdrain.
    change (0 + Z.of_nat m)%Z with (Z.of_nat m) in Hdrain.
    rewrite Hdrain;
      [| unfold is_int, int_min, int_max; lia | exact Hmax | exact Hlen].
    now rewrite truncated_fits.
  - destruct (@io_Copy_pipeline tables m fuel Hmax Hfuel) as [w Hrun].
    eexists. split; [exact Hrun|]. split; [reflexivity|].
    cbn [dst_after collected]. apply records_line_count.
Qed.

Lemma output_line_count_witness :
  (Z.of_nat 3 <= int_max)%Z /\ 3 + 2 <= 5 /\ 3 < length [8; 8; 8; 1] /\
  (exists bytes,
     drain (CounterSource.mk 0 (Z.of_nat 3)) [8; 8; 8; 1]
     = Ok (bytes, Some EOF) /\
     line_count bytes = 3) /\
  (exists c,
     io_Copy (rd := Pipeline_Reader (tables := no_case_tables))
             5 {| collected := [] |} (withHeader (Z.of_nat 3))
     = Some (Ok c) /\
     copy_err c = None /\
     line_count (collected (dst_after c)) = 4).
Proof.
  assert (H1 : (Z.of_nat 3 <= int_max)%Z) by (unfold int_max; cbn; lia).
  assert (H2 : 3 + 2 <= 5) by lia.
  assert (H3 : 3 < length [8; 8; 8; 1]) by (cbn; lia).
  assert (H4 : forall k, k < 3 ->
                 length (Sprintf_value (Z.of_nat k)) <= nth k [8; 8; 8; 1] 0).
  { intros k Hk. destruct k as [|[|[|k]]]; cbn; lia. }
  split; [exact H1|]. split; [exact H2|]. split; [exact H3|].
  exact (@output_line_count no_case_tables 3 5 [8; 8; 8; 1] H1 H2 H3 H4).
Defined.

(** ** CounterSource with any buffers *)

(** X1. A [CounterSource] with [count] records left, read with buffers of any
    sizes, enough of them to reach the call that reports [EOF]: the chunks
    put together are the records, each cut to the size of the buffer of
    its call, and the tail a short buffer left behind is skipped. *)
Theorem CounterSource_drain_any_sizes (i : Z) (count : nat) (sizes : list nat) :
  is_int i -> (i + Z.of_nat count <= int_max)%Z ->
  count < length sizes ->
  drain (CounterSource.mk i (i + Z.of_nat count)) sizes
  = Ok (truncated i count sizes, Some EOF).
Proof.
  intros Hi Hmax Hlen. now apply drain_CounterSource.
Qed.

Lemma CounterSource_drain_any_sizes_witness :
  is_int 9 /\ (9 + Z.of_nat 2 <= int_max)%Z /\ 2 < length [3; 0; 5] /\
  drain (CounterSource.mk 9 (9 + Z.of_nat 2)) [3; 0; 5]
  = Ok (["v"; "a"; "l"]%byte, Some EOF).
Proof.
  assert (H1 : is_int 9) by (unfold is_int, int_min, int_max; lia).
  assert (H2 : (9 + Z.of_nat 2 <= int_max)%Z) by (unfold int_max; cbn; lia).
  assert (H3 : 2 < length [3; 0; 5]) by (cbn; lia).
  split; [exact H1|]. split; [exact H2|]. split; [exact H3|].
  exact (@CounterSource_drain_any_sizes 9 2 [3; 0; 5] H1 H2 H3).
Defined.

(** ** A caller that trusts the count of Uppercase *)

Section ShortBuffer.

Context {tables : UnicodeTables}.

(** X4. [Uppercase] over a [CounterSource] that has a record left, read with a
    buffer shorter than the record, returns a count beyond the buffer: the
    caller that slices [p[:n]] panics on the first call. *)
Theorem Uppercase_short_buffer_panics (c : CounterSource.t) (k : nat)
    (sizes : list nat) :
  (CounterSource.i c < CounterSource.max c)%Z ->
  is_int (CounterSource.i c) -> (CounterSource.max c <= int_max)%Z ->
  k < length (Sprintf_value (CounterSource.i c)) ->
  drain (Uppercase.mk c) (k :: sizes) = Panic.
Proof.
  intros Hlt Hi Hmax Hk. cbn [drain].
  rewrite Uppercase_Read_more by assumption.
  cbn [bind rd_buf rd_n]. unfold slice_to.
  rewrite copy_length, make_length.
  destruct (Nat.leb_spec (length (Sprintf_value (CounterSource.i c))) k);
    [lia | reflexivity].
Qed.

End ShortBuffer.

Lemma Uppercase_short_buffer_panics_witness :
  drain (rd := @Uppercase_Reader no_case_tables _ _)
        (Uppercase.mk (CounterSource.mk 0 3)) [7; 7; 7; 7] = Panic.
Proof.
  refine (@Uppercase_short_buffer_panics no_case_tables (CounterSource.mk 0 3)
            7 [7; 7; 7] _ _ _ _); cbn.
  - lia.
  - unfold is_int, int_min, int_max. lia.
  - unfold int_max. lia.
  - lia.
Defined.

(** ** Counting in int64 *)

Lemma wrap_is_int (z : Z) : is_int (wrap z).
Proof.
  unfold is_int, int_min, int_max, wrap.
  pose proof (Z.mod_pos_bound (z + 2 ^ 63) (2 ^ 64) ltac:(lia)). lia.
Qed.

Lemma wrap_add (a b : Z) : wrap (wrap a + b) = wrap (a + b).
Proof.
  unfold wrap.
  replace ((a + 2 ^ 63) mod 2 ^ 64 - 2 ^ 63 + b + 2 ^ 63)%Z
    with ((a + 2 ^ 63) mod 2 ^ 64 + b)%Z by lia.
  rewrite Zplus_mod_idemp_l. do 2 f_equal. lia.
Qed.

Lemma records_length (count : nat) :
  forall i, length (records i count) <= 28 * count.
Proof.
  induction count as [|count IH]; intros i; cbn [records]; [cbn; lia|].
  rewrite length_app. pose proof (Sprintf_value_length i).
  specialize (IH (i + 1)%Z). lia.
Qed.

Lemma upper_records_length (count : nat) :
  forall i, length (upper_records i count) = length (records i count).
Proof.
  induction count as [|count IH]; intros i; cbn [records upper_records];
    [reflexivity|].
  now rewrite !length_app, Upper_value_length, IH.
Qed.

(** ** The loop of section 3 *)

Lemma read_loop_CounterSource (count : nat) :
  forall (fuel : nat) (i : Z) (buf : list byte) (total : Z),
    is_int i -> (i + Z.of_nat count <= int_max)%Z ->
    count < fuel -> 28 <= length buf -> is_int total ->
    read_loop fuel (CounterSource.mk i (i + Z.of_nat count)) buf total
    = Some (Ok (wrap (total + Z.of_nat (length (records i count))),
                CounterSource.mk (i + Z.of_nat count) (i + Z.of_nat count))).
Proof.
  induction count as [|count IH]; intros fuel i buf total Hi Hmax Hfuel Hbuf Ht;
    (destruct fuel as [|fuel]; [lia|]); cbn [read_loop].
  - rewrite CounterSource_Read_eof
      by (cbn [CounterSource.i CounterSource.max]; lia).
    cbn [rd_n rd_err rd_next Nat.ltb Nat.leb records length].
    now rewrite !Z.add_0_r, wrap_id.
  - pose proof (Sprintf_value_length i) as Hlen.
    rewrite CounterSource_Read_more
      by (cbn [CounterSource.i CounterSource.max];
          unfold is_int, int_min, int_max in *; lia).
    cbn [rd_n rd_err rd_next rd_buf CounterSource.i CounterSource.max].
    rewrite copy_count.
    assert (Hmin : Nat.min (length buf) (length (Sprintf_value i))
                   = length (Sprintf_value i)) by lia.
    rewrite Hmin.
    destruct (Nat.ltb_spec 0 (length (Sprintf_value i))) as [Hp|Hn]; [|lia].
    replace (i + Z.of_nat (S count))%Z with (i + 1 + Z.of_nat count)%Z by lia.
    rewrite IH.
    + cbn [records].
      now rewrite wrap_add, length_app, Nat2Z.inj_add, Z.add_assoc.
    + unfold is_int, int_min, int_max in *. lia.
    + lia.
    + lia.
    + now rewrite copy_length.
    + apply wrap_is_int.
Qed.

(** X5. Section 3 over a [CounterSource] in the place of the file: the loop
    ends on the call after the last record and [total] is the number of
    bytes the source was built to produce. *)
Theorem stream_in_chunks_CounterSource (m fuel : nat) :
  (Z.of_nat (28 * m) <= int_max)%Z -> m < fuel ->
  stream_in_chunks fuel (CounterSource.mk 0 (Z.of_nat m))
  = Some (Ok (Z.of_nat (length (records 0 m)),
              CounterSource.mk (Z.of_nat m) (Z.of_nat m))).
Proof.
  intros Hmax Hfuel. unfold stream_in_chunks.
  pose proof (@read_loop_CounterSource m fuel 0%Z (make (64 * 1024)) 0%Z) as H.
  change (0 + Z.of_nat m)%Z with (Z.of_nat m) in H.
  rewrite H.
  - rewrite wrap_id; [reflexivity|].
    pose proof (records_length m 0%Z).
    unfold is_int, int_min, int_max in *. lia.
  - unfold is_int, int_min, int_max. lia.
  - lia.
  - exact Hfuel.
  - rewrite make_length. lia.
  - unfold is_int, int_min, int_max. lia.
Qed.

Lemma stream_in_chunks_CounterSource_witness :
  (Z.of_nat (28 * 3) <= int_max)%Z /\ 3 < 4 /\
  stream_in_chunks 4 (CounterSource.mk 0 (Z.of_nat 3))
  = Some (Ok (24%Z, CounterSource.mk 3 3)).
Proof.
  assert (H1 : (Z.of_nat (28 * 3) <= int_max)%Z) by (unfold int_max; cbn; lia).
  assert (H2 : 3 < 4) by lia.
  split; [exact H1|]. split; [exact H2|].
  exact (@stream_in_chunks_CounterSource 3 4 H1 H2).
Defined.

(** X6. The loop of section 3 leaves only through [io.EOF]: on a reader that
    keeps failing with any other error it never ends. *)
Theorem stream_in_chunks_spins (R : Type) (rd : Reader R) (file : R)
    (e : error) :
  e <> EOF ->
  (forall p, Read file p = Ok (Readout file p 0 (Some e))) ->
  forall fuel, stream_in_chunks fuel file = None.
Proof.
  intros He Hfail fuel. unfold stream_in_chunks.
  generalize (make (64 * 1024)) as buf. generalize 0%Z as total.
  induction fuel as [|fuel IH]; intros total buf; cbn [read_loop];
    [reflexivity|].
  rewrite Hfail. cbn [rd_n rd_err rd_next rd_buf Nat.ltb Nat.leb].
  destruct e; [contradiction | apply IH ..].
Qed.

Lemma stream_in_chunks_spins_witness :
  Canceled <> EOF /\
  stream_in_chunks 1000 {| always := Canceled |} = None.
Proof.
  assert (H1 : Canceled <> EOF) by discriminate.
  split; [exact H1|].
  exact (@stream_in_chunks_spins ErrReader _ {| always := Canceled |} Canceled
           H1 (fun p => eq_refl) 1000).
Defined.

(** ** What io.Copy reports *)

Lemma slice_to_length (b chunk : list byte) (n : nat) :
  slice_to b n = Ok chunk -> chunk = firstn n b /\ length chunk = n.
Proof.
  unfold slice_to. destruct (Nat.leb_spec n (length b)) as [Hle|Hgt];
    [|discriminate].
  intros Heq. injection Heq as <-. split; [reflexivity|].
  rewrite length_firstn. lia.
Qed.

Section CopyCounts.

Context {R : Type} {rd : Reader R}.

Lemma copyBuffer_Collector (fuel : nat) :
  forall (dst : Collector) (src : R) (buf : list byte) (w : Z) c,
    is_int w ->
    copyBuffer fuel dst src buf w = Some (Ok c) ->
    exists delta,
      collected (dst_after c) = collected dst ++ delta /\
      written c = wrap (w + Z.of_nat (length delta)) /\
      copy_err c <> Some EOF.
Proof.
  induction fuel as [|fuel IH]; intros dst src buf w c Hw Hrun;
    cbn [copyBuffer] in Hrun; [discriminate|].
  destruct (Read src buf) as [o|]; [|discriminate].
  assert (Hend : forall dst' w' delta,
             is_int w' ->
             collected dst' = collected dst ++ delta ->
             w' = wrap (w + Z.of_nat (length delta)) ->
             match rd_err o with
             | Some er =>
                 Some (Ok (Copied w'
                             match er with EOF => None | _ => Some er end
                             dst' (rd_next o)))
             | None => copyBuffer fuel dst' (rd_next o) (rd_buf o) w'
             end = Some (Ok c) ->
             exists delta0,
               collected (dst_after c) = collected dst ++ delta0 /\
               written c = wrap (w + Z.of_nat (length delta0)) /\
               copy_err c <> Some EOF).
  { intros dst' w' delta Hw' Hdst Hcount Hc.
    destruct (rd_err o) as [er|].
    - injection Hc as <-. exists delta. cbn [dst_after written copy_err].
      split; [exact Hdst|]. split; [exact Hcount|]. now destruct er.
    - destruct (IH _ _ _ _ _ Hw' Hc) as (delta' & H1 & H2 & H3).
      exists (delta ++ delta'). rewrite H1, Hdst, app_assoc.
      split; [reflexivity|]. split; [|exact H3].
      now rewrite H2, Hcount, wrap_add, length_app, Nat2Z.inj_add, Z.add_assoc. }
  destruct (0 <? rd_n o).
  - destruct (slice_to (rd_buf o) (rd_n o)) as [chunk|] eqn:Hslice;
      [|discriminate].
    apply slice_to_length in Hslice as [_ Hlen].
    unfold Write, Collector_Writer in Hrun.
    cbn [wr_n wr_err wr_next] in Hrun.
    rewrite Hlen, Nat.ltb_irrefl, Nat.eqb_refl in Hrun. cbn [negb] in Hrun.
    apply (Hend _ _ chunk (wrap_is_int _)) in Hrun;
      [exact Hrun | reflexivity | now rewrite Hlen].
  - apply (Hend _ _ [] Hw) in Hrun; [exact Hrun | now rewrite app_nil_r |].
    cbn [length]. now rewrite Z.add_0_r, wrap_id.
Qed.

Lemma copyBuffer_gather (fuel : nat) :
  forall (dst : Collector) (src : R) (buf : list byte) (w : Z),
    is_int w ->
    copyBuffer fuel dst src buf w
    = match gather fuel src buf with
      | None => None
      | Some Panic => Some Panic
      | Some (Ok (delta, e, s)) =>
          Some (Ok (Copied (wrap (w + Z.of_nat (length delta)))
                           match e with EOF => None | _ => Some e end
                           {| collected := collected dst ++ delta |} s))
      end.
Proof.
  induction fuel as [|fuel IH]; intros dst src buf w Hw;
    cbn [copyBuffer gather]; [reflexivity|].
  destruct (Read src buf) as [o|]; [|reflexivity].
  destruct (0 <? rd_n o).
  - destruct (slice_to (rd_buf o) (rd_n o)) as [chunk|] eqn:Hslice;
      [|reflexivity].
    apply slice_to_length in Hslice as [_ Hlen].
    unfold Write, Collector_Writer. cbn [wr_n wr_err wr_next].
    rewrite Hlen, Nat.ltb_irrefl, Nat.eqb_refl. cbn [negb].
    destruct (rd_err o) as [e|].
    + now rewrite Hlen.
    + rewrite IH by apply wrap_is_int. cbn [collected].
      destruct (gather fuel (rd_next o) (rd_buf o)) as [[[[more e] s]|]|];
        [|reflexivity..].
      now rewrite wrap_add, length_app, Nat2Z.inj_add, Z.add_assoc,
        <- app_assoc, Hlen.
  - destruct (rd_err o) as [e|].
    + cbn [length]. rewrite Z.add_0_r, wrap_id, app_nil_r by exact Hw.
      now destruct dst.
    + rewrite IH by exact Hw.
      now destruct (gather fuel (rd_next o) (rd_buf o)) as [[[[more e] s]|]|].
Qed.

(** X7. Whatever the reader, [io.Copy] into a collecting sink is fixed by
    the reads alone.  When the successive reads into the 32 KiB buffer
    yield the bytes [delta] and end with the error [e], [io.Copy] returns
    with the sink holding what it held before followed by exactly [delta],
    with [written] the length of [delta] (as an int64), and with the
    error [e], except that [io.EOF] becomes [nil]; when a read panics so
    does [io.Copy], and when the reads go on so does [io.Copy]. *)
Theorem io_Copy_counts (fuel : nat) (dst : Collector) (src : R) :
  io_Copy fuel dst src
  = match gather fuel src (make (32 * 1024)) with
    | None => None
    | Some Panic => Some Panic
    | Some (Ok (delta, e, s)) =>
        Some (Ok (Copied (wrap (Z.of_nat (length delta)))
                         match e with EOF => None | _ => Some e end
                         {| collected := collected dst ++ delta |} s))
    end.
Proof.
  unfold io_Copy. rewrite copyBuffer_gather;
    [reflexivity | unfold is_int, int_min, int_max; lia].
Qed.

End CopyCounts.

(** X8. Section 9 for any [max = m]: what [io.Copy] returns and leaves. *)
Theorem io_Copy_pipeline_written {tables : UnicodeTables} (m fuel : nat) :
  (Z.of_nat (28 * m + 8) <= int_max)%Z -> m + 2 <= fuel ->
  io_Copy fuel {| collected := [] |} (withHeader (Z.of_nat m))
  = Some (Ok (Copied (Z.of_nat (8 + length (records 0 m))) None
                {| collected := header ++ upper_records 0 m |}
                (drained (Z.of_nat m)))).
Proof.
  intros Hmax Hfuel.
  destruct (@io_Copy_pipeline tables m fuel) as [w Hrun]; [lia | exact Hfuel |].
  rewrite Hrun. do 2 f_equal.
  unfold io_Copy in Hrun.
  apply copyBuffer_Collector in Hrun;
    [|unfold is_int, int_min, int_max; lia].
  destruct Hrun as (delta & Hdelta & Hw & _).
  cbn [dst_after written collected app] in Hdelta, Hw.
  subst delta. rewrite Hw, Z.add_0_l, length_app, upper_records_length.
  change (length header) with 8.
  rewrite wrap_id; [reflexivity|].
  pose proof (records_length m 0%Z).
  unfold is_int, int_min, int_max in *. lia.
Qed.

Lemma io_Copy_pipeline_written_witness :
  (Z.of_nat (28 * 3 + 8) <= int_max)%Z /\ 3 + 2 <= 5 /\
  io_Copy (rd := Pipeline_Reader (tables := no_case_tables))
          5 {| collected := [] |} (withHeader (Z.of_nat 3))
  = Some (Ok (Copied 32 None
                {| collected :=
                     lines ["id,name"; "VALUE-0"; "VALUE-1"; "VALUE-2"]%string |}
                (drained 3))).
Proof.
  assert (H1 : (Z.of_nat (28 * 3 + 8) <= int_max)%Z) by (unfold int_max; cbn; lia).
  assert (H2 : 3 + 2 <= 5) by lia.
  split; [exact H1|]. split; [exact H2|].
  exact (@io_Copy_pipeline_written no_case_tables 3 5 H1 H2).
Defined.

(** ** HeaderOnce with any buffers, and stacked *)

Section HeaderOnceMore.

Context {R : Type} {upstream : Reader R}.

(** X9. The first call on a fresh [HeaderOnce] hands out the first
    [min(k, 8)] bytes of the header for a buffer of [k] bytes, none for an
    empty buffer, and the rest of the header is never sent: every later
    byte is the wrapped reader's. *)
Theorem HeaderOnce_drain_any_size (up : R) (k : nat) (sizes : list nat) :
  drain (HeaderOnce.mk up false) (k :: sizes)
  = (do more <- drain up sizes; Ok (firstn k header ++ fst more, snd more)).
Proof. apply drain_HeaderOnce_first. Qed.

(** X10. Two [HeaderOnce] stacked send the header twice, one per wrapper,
    before the first byte of the reader underneath. *)
Theorem HeaderOnce_twice (up : R) (k1 k2 : nat) (sizes : list nat) :
  length header <= k1 -> length header <= k2 ->
  drain (HeaderOnce.mk (HeaderOnce.mk up false) false) (k1 :: k2 :: sizes)
  = (do more <- drain up sizes;
     Ok (header ++ header ++ fst more, snd more)).
Proof.
  intros H1 H2.
  rewrite drain_HeaderOnce_first, drain_HeaderOnce_first.
  rewrite !firstn_all2 by assumption.
  destruct (drain up sizes) as [[bytes e]|]; reflexivity.
Qed.

Lemma keeps_length_HeaderOnce : keeps_length R -> keeps_length (HeaderOnce.t R).
Proof.
  intros HR [up d] p o H. destruct d.
  - rewrite HeaderOnce_Read_done in H.
    destruct (Read up p) as [o'|] eqn:Hup; [|discriminate].
    injection H as <-. cbn [rd_buf]. exact (HR _ _ _ Hup).
  - rewrite HeaderOnce_Read_first in H. injection H as <-.
    exact (copy_length p header).
Qed.

End HeaderOnceMore.

Lemma HeaderOnce_twice_witness :
  length header <= 8 /\ length header <= 9 /\
  drain (HeaderOnce.mk (HeaderOnce.mk (CounterSource.mk 0 1) false) false)
        [8; 9; 8; 8]
  = Ok (lines ["id,name"; "id,name"; "value-0"]%string, Some EOF).
Proof.
  assert (H1 : length header <= 8) by (cbn; lia).
  assert (H2 : length header <= 9) by (cbn; lia).
  split; [exact H1|]. split; [exact H2|].
  exact (@HeaderOnce_twice _ _ (CounterSource.mk 0 1) 8 9 [8; 8] H1 H2).
Defined.

Lemma keeps_length_CounterSource : keeps_length CounterSource.t.
Proof.
  intros s p o H. unfold Read, CounterSource_Reader, CounterSource.Read in H.
  destruct (CounterSource.i s >=? CounterSource.max s)%Z.
  - now injection H as <-.
  - pose proof (copy_length p (Sprintf_value (CounterSource.i s))) as Hlen.
    destruct (copy p (Sprintf_value (CounterSource.i s))).
    now injection H as <-.
Qed.

(** ** Uppercase over any reader *)

Lemma upper_byte_ascii (b : byte) : is_ascii (upper_byte b) = is_ascii b.
Proof. now destruct b. Qed.

Lemma upper_byte_idem (b : byte) : upper_byte (upper_byte b) = upper_byte b.
Proof. now destruct b. Qed.

Lemma map_upper_ascii (s : list byte) :
  forallb is_ascii (map upper_byte s) = forallb is_ascii s.
Proof.
  induction s as [|b s IH]; cbn [map forallb]; [reflexivity|].
  now rewrite upper_byte_ascii, IH.
Qed.

Section UppercaseOver.

Context {tables : UnicodeTables}.

Lemma keeps_length_Uppercase (R : Type) {rd : Reader R} :
  keeps_length (Uppercase.t R).
Proof.
  intros u p o H. unfold Read at 1, Uppercase_Reader, Uppercase.Read in H.
  destruct (Read (Uppercase.r u) (make 4096)) as [o'|]; cbn [bind] in H;
    [|discriminate].
  destruct (0 <? rd_n o').
  - destruct (slice_to (rd_buf o') (rd_n o')); cbn [bind] in H; [|discriminate].
    pose proof (copy_length p (bytes_ToUpper a)) as Hlen.
    destruct (copy p (bytes_ToUpper a)). now injection H as <-.
  - now injection H as <-.
Qed.

Lemma drain_Uppercase (R : Type) {rd : Reader R} :
  keeps_length R ->
  forall (sizes : list nat) (up : R) (bytes : list byte) (e : option error),
    Forall (fun k => 4096 <= k) sizes ->
    drain up (map (fun _ => 4096) sizes) = Ok (bytes, e) ->
    forallb is_ascii bytes = true ->
    drain (Uppercase.mk up) sizes = Ok (map upper_byte bytes, e).
Proof.
  intros HR. induction sizes as [|k sizes IH]; intros up bytes e Hk Hup Hascii.
  - cbn [map drain] in *. now injection Hup as <- <-.
  - apply Forall_cons_iff in Hk as [Hk Hsizes].
    cbn [map drain] in *.
    change (Read (Uppercase.mk up) (make k))
      with (Uppercase.Read (Uppercase.mk up) (make k)).
    unfold Uppercase.Read. cbn [Uppercase.r].
    destruct (Read up (make 4096)) as [o|] eqn:Hread; cbn [bind] in *;
      [|discriminate].
    pose proof (HR _ _ _ Hread) as Hbuf. rewrite make_length in Hbuf.
    destruct (slice_to (rd_buf o) (rd_n o)) as [chunk|] eqn:Hslice;
      cbn [bind] in *; [|discriminate].
    apply slice_to_length in Hslice as [Hchunk Hlen].
    assert (Hn : rd_n o <= 4096).
    { rewrite <- Hlen, Hchunk, length_firstn. lia. }
    assert (Hparts : exists rest,
               bytes = chunk ++ rest /\
               match rd_err o with
               | Some e' => rest = [] /\ e = Some e'
               | None => drain (rd_next o) (map (fun _ => 4096) sizes)
                         = Ok (rest, e)
               end).
    { destruct (rd_err o).
      - injection Hup as <- <-. exists []. now rewrite app_nil_r.
      - destruct (drain (rd_next o) (map (fun _ => 4096) sizes))
          as [[rest e']|]; cbn [bind fst snd] in Hup; [|discriminate].
        injection Hup as <- <-. now exists rest. }
    destruct Hparts as (rest & -> & Hrest).
    rewrite forallb_app in Hascii. apply andb_true_iff in Hascii as [Hc Hr].
    assert (Hout : slice_to (fst (copy (make k) (map upper_byte chunk)))
                            (rd_n o)
                   = Ok (map upper_byte chunk)).
    { pose proof (slice_of_copy (make k) (map upper_byte chunk)) as Hs.
      rewrite copy_count, make_length, length_map, Hlen in Hs.
      rewrite Nat.min_r in Hs by lia.
      now rewrite firstn_all2 in Hs by (rewrite length_map; lia). }
    destruct (Nat.ltb_spec 0 (rd_n o)) as [Hpos|Hzero].
    + cbn [bind]. unfold bytes_ToUpper. rewrite Hc.
      destruct (copy (make k) (map upper_byte chunk)) as [p' n'] eqn:Hcopy.
      cbn [bind rd_buf rd_n rd_err rd_next fst] in *. rewrite Hout. cbn [bind].
      rewrite map_app. destruct (rd_err o) as [e'|].
      * destruct Hrest as [-> ->]. cbn [map]. now rewrite ?app_nil_r.
      * now rewrite (IH _ _ _ Hsizes Hrest Hr).
    + cbn [bind rd_buf rd_n rd_err rd_next].
      assert (Hnil : chunk = []).
      { apply length_zero_iff_nil. lia. }
      subst chunk. replace (rd_n o) with 0 by lia.
      unfold slice_to. cbn [Nat.leb firstn bind map app].
      destruct (rd_err o) as [e'|].
      * destruct Hrest as [-> ->]. cbn [map]. now rewrite ?app_nil_r.
      * now rewrite (IH _ _ _ Hsizes Hrest Hr).
Qed.

(** X11. Read with buffers of 4096 bytes or more, [Uppercase] over any reader
    yields the bytes that reader yields to reads of 4096 bytes, in upper
    case, and ends with the same error, as long as those bytes are
    ASCII. *)
Theorem Uppercase_drain (R : Type) (rd : Reader R) (up : R)
    (sizes : list nat) (bytes : list byte) (e : option error) :
  keeps_length R ->
  Forall (fun k => 4096 <= k) sizes ->
  drain up (map (fun _ => 4096) sizes) = Ok (bytes, e) ->
  forallb is_ascii bytes = true ->
  drain (Uppercase.mk up) sizes = Ok (map upper_byte bytes, e).
Proof.
  intros HR Hk Hup Hascii. exact (drain_Uppercase HR _ Hk Hup Hascii).
Qed.

(** X12. [Uppercase] twice is [Uppercase] once. *)
Theorem Uppercase_twice (R : Type) (rd : Reader R) (up : R)
    (sizes : list nat) (bytes : list byte) (e : option error) :
  keeps_length R ->
  Forall (fun k => 4096 <= k) sizes ->
  drain up (map (fun _ => 4096) sizes) = Ok (bytes, e) ->
  forallb is_ascii bytes = true ->
  drain (Uppercase.mk (Uppercase.mk up)) sizes
  = drain (Uppercase.mk up) sizes.
Proof.
  intros HR Hk Hup Hascii.
  rewrite (drain_Uppercase HR _ Hk Hup Hascii).
  assert (Hinner : drain (Uppercase.mk up) (map (fun _ => 4096) sizes)
                   = Ok (map upper_byte bytes, e)).
  { apply (drain_Uppercase HR).
    - apply Forall_forall. intros k Hin. apply in_map_iff in Hin as (_ & <- & _).
      lia.
    - rewrite map_map. exact Hup.
    - exact Hascii. }
  rewrite (drain_Uppercase (@keeps_length_Uppercase R rd) _ Hk Hinner)
    by now rewrite map_upper_ascii.
  f_equal. f_equal. rewrite map_map. apply map_ext. apply upper_byte_idem.
Qed.

(** X13. The order of the wrappers shows in the header alone: [Uppercase]
    around [HeaderOnce] sends the header in upper case too. *)
Theorem Uppercase_over_HeaderOnce (R : Type) (rd : Reader R) (up : R)
    (k : nat) (sizes : list nat) (bytes : list byte) (e : option error) :
  keeps_length R ->
  Forall (fun k => 4096 <= k) (k :: sizes) ->
  drain up (map (fun _ => 4096) sizes) = Ok (bytes, e) ->
  forallb is_ascii bytes = true ->
  drain (Uppercase.mk (HeaderOnce.mk up false)) (k :: sizes)
  = Ok (map upper_byte header ++ map upper_byte bytes, e) /\
  drain (HeaderOnce.mk (Uppercase.mk up) false) (k :: sizes)
  = Ok (header ++ map upper_byte bytes, e).
Proof.
  intros HR Hk Hup Hascii. split.
  - rewrite <- map_app.
    apply (drain_Uppercase (keeps_length_HeaderOnce HR) _ Hk).
    + cbn [map]. rewrite drain_HeaderOnce_first, Hup. cbn [bind fst snd].
      now rewrite firstn_all2 by (cbn; lia).
    + rewrite forallb_app, Hascii. reflexivity.
  - rewrite drain_HeaderOnce_first.
    apply Forall_cons_iff in Hk as [Hk Hsizes].
    rewrite (drain_Uppercase HR _ Hsizes Hup Hascii). cbn [bind fst snd].
    now rewrite firstn_all2 by (cbn; lia).
Qed.

End UppercaseOver.

Lemma all_4096 : Forall (fun k => 4096 <= k) [4096; 4096; 5000].
Proof. repeat (apply Forall_cons; [lia|]). apply Forall_nil. Defined.

Lemma Uppercase_drain_witness :
  drain (CounterSource.mk 0 2) (map (fun _ => 4096) [4096; 4096; 5000])
  = Ok (lines ["value-0"; "value-1"]%string, Some EOF) /\
  forallb is_ascii (lines ["value-0"; "value-1"]%string) = true /\
  drain (rd := @Uppercase_Reader no_case_tables _ _)
        (Uppercase.mk (CounterSource.mk 0 2)) [4096; 4096; 5000]
  = Ok (lines ["VALUE-0"; "VALUE-1"]%string, Some EOF).
Proof.
  split; [reflexivity|]. split; [reflexivity|].
  exact (@Uppercase_drain no_case_tables _ _ (CounterSource.mk 0 2)
           [4096; 4096; 5000] (lines ["value-0"; "value-1"]%string) (Some EOF)
           keeps_length_CounterSource all_4096 eq_refl eq_refl).
Defined.

Lemma Uppercase_twice_witness :
  drain (rd := @Uppercase_Reader no_case_tables _
                 (@Uppercase_Reader no_case_tables _ _))
        (Uppercase.mk (Uppercase.mk (CounterSource.mk 0 2)))
        [4096; 4096; 5000]
  = drain (rd := @Uppercase_Reader no_case_tables _ _)
          (Uppercase.mk (CounterSource.mk 0 2)) [4096; 4096; 5000].
Proof.
  exact (@Uppercase_twice no_case_tables _ _ (CounterSource.mk 0 2)
           [4096; 4096; 5000] (lines ["value-0"; "value-1"]%string) (Some EOF)
           keeps_length_CounterSource all_4096 eq_refl eq_refl).
Defined.

Lemma Uppercase_over_HeaderOnce_witness :
  drain (rd := @Uppercase_Reader no_case_tables _ _)
        (Uppercase.mk (HeaderOnce.mk (CounterSource.mk 0 1) false))
        [4096; 4096; 5000]
  = Ok (lines ["ID,NAME"; "VALUE-0"]%string, Some EOF) /\
  drain (rd := @HeaderOnce_Reader _ (@Uppercase_Reader no_case_tables _ _))
        (HeaderOnce.mk (Uppercase.mk (CounterSource.mk 0 1)) false)
        [4096; 4096; 5000]
  = Ok (lines ["id,name"; "VALUE-0"]%string, Some EOF).
Proof.
  exact (@Uppercase_over_HeaderOnce no_case_tables _ _ (CounterSource.mk 0 1)
           4096 [4096; 5000] (lines ["value-0"]%string) (Some EOF)
           keeps_length_CounterSource all_4096 eq_refl eq_refl).
Defined.

(** ** The buffered writer before its Flush *)

Section HeldBack.

Context {W : Type} {downstream : Writer W}.

Lemma bufio_Write_fits (b : bufio.t W) (p : list byte) :
  bufio.err b = None -> length p <= bufio.Available b ->
  bufio.Write b p
  = Writeout (bufio.mk None (bufio.buf b ++ p) (bufio.size b) (bufio.wr b))
             (length p) None.
Proof.
  intros Herr Hfit. unfold bufio.Write.
  rewrite bufio_Write_loop_stops
    by (destruct (Nat.ltb_spec (bufio.Available b) (length p));
        [lia | reflexivity]).
  rewrite Herr.
  rewrite Nat.min_r by exact Hfit. now rewrite firstn_all.
Qed.

Lemma bufio_Writes_fit (ps : list (list byte)) :
  forall b : bufio.t W,
    bufio.err b = None ->
    length (bufio.buf b) + length (concat ps) <= bufio.size b ->
    Writes b ps
    = bufio.mk None (bufio.buf b ++ concat ps) (bufio.size b) (bufio.wr b).
Proof.
  induction ps as [|p ps IH]; intros b Herr Hfit.
  - cbn [Writes fold_left concat]. rewrite app_nil_r. destruct b.
    cbn [bufio.err] in Herr. now subst.
  - cbn [concat] in *. rewrite length_app in Hfit.
    change (Writes b (p :: ps)) with (Writes (wr_next (bufio.Write b p)) ps).
    rewrite bufio_Write_fits by (unfold bufio.Available; (assumption || lia)).
    cbn [wr_next]. rewrite IH; cbn [bufio.err bufio.buf bufio.size bufio.wr].
    + now rewrite app_assoc.
    + reflexivity.
    + rewrite length_app. lia.
Qed.

(** X15. Writes that together fit the 4096 bytes of the buffer never reach the
    wrapped writer: until [Flush] is called it is as it was, and all the
    bytes sit in the buffer. *)
Theorem bufio_holds_back (file : W) (ps : list (list byte)) :
  length (concat ps) <= 4096 ->
  Writes (bufio.NewWriter file) ps = bufio.mk None (concat ps) 4096 file.
Proof.
  intros Hfit. unfold bufio.NewWriter.
  now rewrite bufio_Writes_fit by (cbn; (reflexivity || lia)).
Qed.

End HeldBack.

Lemma bufio_holds_back_witness :
  length (concat [lines ["hello"%string]; lines ["world"%string]]) <= 4096 /\
  Writes (bufio.NewWriter {| collected := [] |})
         [lines ["hello"%string]; lines ["world"%string]]
  = bufio.mk None (lines ["hello"; "world"]%string) 4096 {| collected := [] |}.
Proof.
  assert (H : length (concat [lines ["hello"%string]; lines ["world"%string]])
              <= 4096) by (cbn; lia).
  split; [exact H|].
  exact (@bufio_holds_back _ _ {| collected := [] |}
           [lines ["hello"%string]; lines ["world"%string]] H).
Defined.

(** X16. Section 10: the line is in the buffer, not in the file, when
    [Fprintln] returns; the deferred [Flush] is what puts it into the
    file, after whatever the file held. *)
Theorem hello_needs_Flush (file : Collector) :
  Fprintln (bufio.NewWriter file) "hello"
  = bufio.mk None (lines ["hello"%string]) 4096 file /\
  buffered_hello file
  = {| collected := collected file ++ lines ["hello"%string] |}.
Proof.
  split; [|apply buffered_hello_flushed].
  unfold Fprintln.
  change (Write (bufio.NewWriter file) (lines ["hello"%string]))
    with (bufio.Write (bufio.NewWriter file) (lines ["hello"%string])).
  rewrite bufio_Write_fits; [reflexivity | reflexivity | cbn; lia].
Qed.

(** ** No panic in the notes' own readers *)

Lemma Source_returns_witness :
  exists o,
    Read (Reader := Pipeline_Reader (tables := no_case_tables))
         (withHeader 3) (make 5) = Ok o /\
    length (rd_buf o) = length (make 5) /\
    rd_n o <= Nat.max (length (make 5)) 4096.
Proof.
  exact (@Source_returns no_case_tables Pipeline _
           (Source_HeaderOnce (Source_Uppercase Source_CounterSource))
           (withHeader 3) (make 5)).
Defined.

